(** * Jettison: a shallow embedding of [jettison/__init__.py]

    The module packs dictionaries into byte strings with Python's [struct]
    module.  Python values, exceptions and the parts of [struct] and of the
    UTF-8 codec that the module calls are modelled first; the classes of the
    module ([Codec], [ArrayCodec], [StringCodec], [Field], [Definition],
    [Schema]) follow, one definition per method, in the order of the source.

    The model follows Python 3 on an IEEE 754 platform.  A Python [float] is
    represented by the 64 bits of its binary64 encoding, a text string by its
    list of code points, a byte string by a [list byte]. *)

From Stdlib Require Import ZArith Lia List Bool.
From Stdlib Require Import Strings.Byte.
From Stdlib Require Import Floats.SpecFloat.
From stdpp Require Import gmap strings list fin_maps pretty.

Local Open Scope Z_scope.

(** ** Python values and exceptions *)

(** The exceptions the module and the library calls it makes can raise. *)
Inductive exn : Type :=
  | StructError          (* struct.error *)
  | OverflowError
  | AssertionError
  | ValueError
  | KeyError
  | TypeError
  | AttributeError
  | UnicodeEncodeError
  | UnicodeDecodeError.

(** Python's class hierarchy below [ValueError]: the two Unicode errors are
    subclasses of it, the others are not. *)
Definition is_ValueError (e : exn) : bool :=
  match e with
  | ValueError | UnicodeEncodeError | UnicodeDecodeError => true
  | _ => false
  end.

Inductive result (A : Type) : Type :=
  | Ok (a : A)
  | Err (e : exn).
Arguments Ok {A} a.
Arguments Err {A} e.

Definition rbind {A B} (r : result A) (k : A -> result B) : result B :=
  match r with
  | Ok a => k a
  | Err e => Err e
  end.

Definition is_Ok {A} (r : result A) : bool :=
  match r with Ok _ => true | Err _ => false end.

Set Warnings "-register-all".

(** The Python values that reach the codecs. [VFloat] carries the binary64
    bit pattern; [VText] the code points of a [str]; [VBytes] a [bytes]
    object; [VTuple] and [VList] hold the items of a tuple and of a list. *)
Inductive value : Type :=
  | VNone
  | VBool (b : bool)
  | VInt (z : Z)
  | VFloat (bits : Z)
  | VText (s : list Z)
  | VBytes (bs : list byte)
  | VTuple (items : list value)
  | VList (items : list value).

(** ** Bytes and fixed-width integers *)

Definition byte_of_Z (z : Z) : byte :=
  match Byte.of_N (Z.to_N (z mod 256)) with
  | Some b => b
  | None => x00
  end.

Definition Z_of_byte (b : byte) : Z := Z.of_N (Byte.to_N b).

(** The [n] low bytes of [u], least significant first. *)
Fixpoint le_bytes (n : nat) (u : Z) : list byte :=
  match n with
  | O => []
  | S n' => byte_of_Z u :: le_bytes n' (u / 256)
  end.

Fixpoint le_int (bs : list byte) : Z :=
  match bs with
  | [] => 0
  | b :: rest => Z_of_byte b + 256 * le_int rest
  end.

(** Byte order: [little_endian = false] selects the ['>'] prefix. *)
Definition order_bytes (little_endian : bool) (bs : list byte) : list byte :=
  if little_endian then bs else rev bs.

Definition uint_to_bytes (little_endian : bool) (n : nat) (u : Z) : list byte :=
  order_bytes little_endian (le_bytes n u).

Definition uint_of_bytes (little_endian : bool) (bs : list byte) : Z :=
  le_int (order_bytes little_endian bs).

(** ** IEEE 754 bit patterns

    [SpecFloat] supplies round-to-nearest-even; the two functions below
    move between a bit pattern and a [spec_float]. [mw] is the width of the
    stored mantissa and [ew] of the exponent. *)

Section Bits.
Variables prec emax mw ew : Z.

Definition float_sign (bits : Z) : bool := Z.testbit bits (mw + ew).
Definition float_exp (bits : Z) : Z := (bits / 2 ^ mw) mod 2 ^ ew.
Definition float_man (bits : Z) : Z := bits mod 2 ^ mw.

Definition sign_bit (s : bool) : Z := if s then 2 ^ (mw + ew) else 0.

Definition sf_of_bits (bits : Z) : spec_float :=
  let s := float_sign bits in
  let e := float_exp bits in
  let m := float_man bits in
  if e =? 2 ^ ew - 1 then
    if m =? 0 then S754_infinity s else S754_nan
  else if e =? 0 then
    match m with
    | Zpos p => S754_finite s p (emin prec emax)
    | _ => S754_zero s
    end
  else
    match m + 2 ^ mw with
    | Zpos p => S754_finite s p (e + emin prec emax - 1)
    | _ => S754_nan
    end.

Definition inf_bits (s : bool) : Z := sign_bit s + (2 ^ ew - 1) * 2 ^ mw.

(** [S754_nan] has no payload: it maps to the default quiet NaN. *)
Definition bits_of_sf (x : spec_float) : Z :=
  match x with
  | S754_zero s => sign_bit s
  | S754_infinity s => inf_bits s
  | S754_nan => inf_bits false + 2 ^ (mw - 1)
  | S754_finite s m e =>
      if 2 ^ mw <=? Zpos m
      then sign_bit s + (e - emin prec emax + 1) * 2 ^ mw + (Zpos m - 2 ^ mw)
      else sign_bit s + Zpos m
  end.

Definition is_nan_bits (bits : Z) : bool :=
  (float_exp bits =? 2 ^ ew - 1) && negb (float_man bits =? 0).

Definition is_inf_bits (bits : Z) : bool :=
  (float_exp bits =? 2 ^ ew - 1) && (float_man bits =? 0).
End Bits.

Definition sf_of_f64 := sf_of_bits 53 1024 52 11.
Definition f64_of_sf := bits_of_sf 53 1024 52 11.
Definition sf_of_f32 := sf_of_bits 24 128 23 8.
Definition f32_of_sf := bits_of_sf 24 128 23 8.

(** The C conversion [(float)x]: round to nearest even; a NaN keeps its
    sign and the high bits of its payload and becomes quiet. *)
Definition f64_to_f32 (bits : Z) : Z :=
  match sf_of_f64 bits with
  | S754_nan =>
      sign_bit 23 8 (float_sign 52 11 bits) + inf_bits 23 8 false
      + Z.lor (2 ^ 22) (float_man 52 bits / 2 ^ 29)
  | S754_finite s m e => f32_of_sf (binary_round 24 128 s m e)
  | x => f32_of_sf x
  end.

(** The C conversion [(double)y], which is exact. *)
Definition f32_to_f64 (bits : Z) : Z :=
  match sf_of_f32 bits with
  | S754_nan =>
      sign_bit 52 11 (float_sign 23 8 bits) + inf_bits 52 11 false
      + Z.lor (2 ^ 51) (float_man 23 bits * 2 ^ 29)
  | S754_finite s m e => f64_of_sf (binary_round 53 1024 s m e)
  | x => f64_of_sf x
  end.

(** [float(n)] for a Python [int]: correctly rounded, [None] on overflow. *)
Definition float_of_int (z : Z) : option Z :=
  match binary_normalize 53 1024 z 0 false with
  | S754_infinity _ => None
  | x => Some (f64_of_sf x)
  end.

(** The mathematical integer a float equals, if any: the key under which
    a [dict] with [int] keys finds it. *)
Definition int_of_float (bits : Z) : option Z :=
  match sf_of_f64 bits with
  | S754_zero _ => Some 0
  | S754_finite s m e =>
      let a := if s then Zneg m else Zpos m in
      if 0 <=? e then Some (a * 2 ^ e)
      else if Zpos m mod 2 ^ (- e) =? 0 then Some (a / 2 ^ (- e))
      else None
  | _ => None
  end.

(** ** The [struct] module

    The format characters the module uses, always behind a ['>'] or ['<']
    prefix (standard sizes, no padding). *)

Inductive format : Type :=
  | F_bool   (* '?' *)
  | F_f      (* 'f' *)
  | F_d      (* 'd' *)
  | F_b      (* 'b' *)
  | F_h      (* 'h' *)
  | F_i      (* 'i' *)
  | F_B      (* 'B' *)
  | F_H      (* 'H' *)
  | F_I.     (* 'I' *)

Definition calcsize (f : format) : nat :=
  match f with
  | F_bool | F_b | F_B => 1
  | F_h | F_H => 2
  | F_f | F_i | F_I => 4
  | F_d => 8
  end.

(** The inclusive range of an integer format; [None] for the others. *)
Definition int_bounds (f : format) : option (Z * Z) :=
  match f with
  | F_b => Some (-128, 127)
  | F_h => Some (-32768, 32767)
  | F_i => Some (-2147483648, 2147483647)
  | F_B => Some (0, 255)
  | F_H => Some (0, 65535)
  | F_I => Some (0, 4294967295)
  | _ => None
  end.

(** Truth value of an object, as ['?'] takes it. *)
Definition truth (v : value) : bool :=
  match v with
  | VNone => false
  | VBool b => b
  | VInt z => negb (z =? 0)
  | VFloat bits => negb (bits mod 2 ^ 63 =? 0)
  | VText s => negb (Nat.eqb (length s) 0)
  | VBytes bs => negb (Nat.eqb (length bs) 0)
  | VTuple items | VList items => negb (Nat.eqb (length items) 0)
  end.

(** What an integer format accepts: [int] and its subclass [bool]. *)
Definition as_index (v : value) : option Z :=
  match v with
  | VInt z => Some z
  | VBool b => Some (if b then 1 else 0)
  | _ => None
  end.

(** What a float format accepts: a [float], or an [int] that converts. *)
Definition as_double (v : value) : option Z :=
  match v with
  | VFloat bits => Some bits
  | VInt z => float_of_int z
  | VBool b => float_of_int (if b then 1 else 0)
  | _ => None
  end.

(** [struct.pack] of one item. *)
Definition struct_pack1 (little_endian : bool) (f : format) (v : value)
  : result (list byte) :=
  match f with
  | F_bool => Ok [if truth v then x01 else x00]
  | F_d =>
      match as_double v with
      | Some bits => Ok (uint_to_bytes little_endian 8 bits)
      | None => Err StructError
      end
  | F_f =>
      match as_double v with
      | Some bits =>
          let y := f64_to_f32 bits in
          if is_inf_bits 23 8 y && negb (is_inf_bits 52 11 bits)
          then Err OverflowError
          else Ok (uint_to_bytes little_endian 4 y)
      | None => Err StructError
      end
  | _ =>
      match as_index v, int_bounds f with
      | Some z, Some (lo, hi) =>
          if (lo <=? z) && (z <=? hi)
          then Ok (uint_to_bytes little_endian (calcsize f) z)
          else Err StructError
      | _, _ => Err StructError
      end
  end.

(** [struct.pack] of a repeated format: the items in order; the first item
    that fails raises. *)
Fixpoint struct_pack (little_endian : bool) (f : format) (vs : list value)
  : result (list byte) :=
  match vs with
  | [] => Ok []
  | v :: rest =>
      rbind (struct_pack1 little_endian f v) (fun b =>
      rbind (struct_pack little_endian f rest) (fun bs => Ok (b ++ bs)))
  end.

Definition signed (n : nat) (u : Z) : Z :=
  if u <? 2 ^ (8 * Z.of_nat n - 1) then u else u - 2 ^ (8 * Z.of_nat n).

(** [struct.unpack] of one item from exactly [calcsize f] bytes. *)
Definition struct_unpack1 (little_endian : bool) (f : format) (bs : list byte)
  : value :=
  let u := uint_of_bytes little_endian bs in
  match f with
  | F_bool => VBool (negb (u =? 0))
  | F_d => VFloat u
  | F_f => VFloat (f32_to_f64 u)
  | F_B | F_H | F_I => VInt u
  | F_b | F_h | F_i => VInt (signed (calcsize f) u)
  end.

Definition slice (string : list byte) (offset len : nat) : list byte :=
  firstn len (skipn offset string).

Fixpoint chunks (size count : nat) (bs : list byte) : list (list byte) :=
  match count with
  | O => []
  | S c => firstn size bs :: chunks size c (skipn size bs)
  end.

(** [struct.unpack_from] of a repeated format at a non-negative offset: it
    raises unless the buffer holds the whole format from the offset on. *)
Definition struct_unpack_from (little_endian : bool) (f : format)
    (count : nat) (string : list byte) (offset : nat) : result (list value) :=
  if (offset + count * calcsize f <=? length string)%nat
  then Ok (map (struct_unpack1 little_endian f)
             (chunks (calcsize f) count (skipn offset string)))
  else Err StructError.

(** The ['{n}s'] format: [n] raw bytes. *)
Definition struct_pack_s (n : nat) (bs : list byte) : result (list byte) :=
  Ok (firstn n bs ++ repeat x00 (n - length bs)).

Definition struct_unpack_from_s (n : nat) (string : list byte) (offset : nat)
  : result (list byte) :=
  if (offset + n <=? length string)%nat
  then Ok (slice string offset n)
  else Err StructError.

(** ** UTF-8, as [str.encode('utf-8')] and [bytes.decode('utf-8')] *)

Definition utf8_encode_cp (c : Z) : option (list byte) :=
  if c <? 0 then None
  else if c <? 128 then Some [byte_of_Z c]
  else if c <? 2048 then
    Some [byte_of_Z (192 + c / 64); byte_of_Z (128 + c mod 64)]
  else if c <? 65536 then
    if (55296 <=? c) && (c <=? 57343) then None
    else Some [byte_of_Z (224 + c / 4096);
               byte_of_Z (128 + (c / 64) mod 64);
               byte_of_Z (128 + c mod 64)]
  else if c <? 1114112 then
    Some [byte_of_Z (240 + c / 262144);
          byte_of_Z (128 + (c / 4096) mod 64);
          byte_of_Z (128 + (c / 64) mod 64);
          byte_of_Z (128 + c mod 64)]
  else None.

Fixpoint utf8_encode (s : list Z) : result (list byte) :=
  match s with
  | [] => Ok []
  | c :: rest =>
      match utf8_encode_cp c with
      | Some b => rbind (utf8_encode rest) (fun bs => Ok (b ++ bs))
      | None => Err UnicodeEncodeError
      end
  end.

Definition is_cont (b : byte) : bool :=
  (128 <=? Z_of_byte b) && (Z_of_byte b <? 192).

Definition cont (b : byte) : Z := Z_of_byte b - 128.

Definition decoded (lo hi c : Z) (rest : result (list Z)) : result (list Z) :=
  if (lo <=? c) && (c <=? hi) && negb ((55296 <=? c) && (c <=? 57343))
  then rbind rest (fun s => Ok (c :: s))
  else Err UnicodeDecodeError.

(** The strict decoder: overlong forms, surrogates, code points above
    U+10FFFF and truncated sequences are errors. *)
Fixpoint utf8_decode (bs : list byte) : result (list Z) :=
  match bs with
  | [] => Ok []
  | b0 :: r0 =>
      let x := Z_of_byte b0 in
      if x <? 128 then rbind (utf8_decode r0) (fun s => Ok (x :: s))
      else if x <? 192 then Err UnicodeDecodeError
      else if x <? 224 then
        match r0 with
        | b1 :: r1 =>
            if is_cont b1
            then decoded 128 2047 ((x - 192) * 64 + cont b1) (utf8_decode r1)
            else Err UnicodeDecodeError
        | _ => Err UnicodeDecodeError
        end
      else if x <? 240 then
        match r0 with
        | b1 :: b2 :: r2 =>
            if is_cont b1 && is_cont b2
            then decoded 2048 65535
                   ((x - 224) * 4096 + cont b1 * 64 + cont b2) (utf8_decode r2)
            else Err UnicodeDecodeError
        | _ => Err UnicodeDecodeError
        end
      else if x <? 248 then
        match r0 with
        | b1 :: b2 :: b3 :: r3 =>
            if is_cont b1 && is_cont b2 && is_cont b3
            then decoded 65536 1114111
                   ((x - 240) * 262144 + cont b1 * 4096 + cont b2 * 64 + cont b3)
                   (utf8_decode r3)
            else Err UnicodeDecodeError
        | _ => Err UnicodeDecodeError
        end
      else Err UnicodeDecodeError
  end.

(** ** Mutable state

    The only attribute the module assigns after construction is [size], which
    [ArrayCodec.loads] and [StringCodec.loads] set on their codec object.
    The heap holds that attribute for the one [StringCodec] of the codec
    table and for every [ArrayCodec] by address; an absent entry is an
    attribute that has not been set. [next_loc] is the next free address. *)

Record Heap : Type := {
  string_size : option nat;
  array_size : gmap nat nat;
  next_loc : nat
}.

Definition empty_heap : Heap :=
  {| string_size := None; array_size := ∅; next_loc := O |}.

(** Computations that read and write the heap and may raise; the heap
    survives an exception. *)
Definition M (A : Type) : Type := Heap -> Heap * result A.

Definition ret {A} (a : A) : M A := fun h => (h, Ok a).
Definition raise {A} (e : exn) : M A := fun h => (h, Err e).
Definition bind {A B} (c : M A) (k : A -> M B) : M B :=
  fun h => match c h with
           | (h', Ok a) => k a h'
           | (h', Err e) => (h', Err e)
           end.
Definition lift {A} (r : result A) : M A := fun h => (h, r).

Notation "x <- c ;; k" := (bind c (fun x => k))
  (at level 100, c at next level, right associativity).
Notation "c ;;; k" := (bind c (fun _ => k))
  (at level 100, right associativity).

Definition set_string_size (n : nat) : M unit :=
  fun h => ({| string_size := Some n; array_size := array_size h;
               next_loc := next_loc h |}, Ok tt).

Definition set_array_size (l n : nat) : M unit :=
  fun h => ({| string_size := string_size h;
               array_size := <[l := n]> (array_size h);
               next_loc := next_loc h |}, Ok tt).

Definition alloc : M nat :=
  fun h => ({| string_size := string_size h; array_size := array_size h;
               next_loc := S (next_loc h) |}, Ok (next_loc h)).

(** ** Length structs *)

(** [_get_length_struct(little_endian)]: ['<I'] or ['>I']. The two
    definitions below are its [pack] and its [unpack_from(...)[0]]. *)
Definition length_struct_size : nat := calcsize F_I.

Definition length_struct_pack (little_endian : bool) (length : nat)
  : result (list byte) :=
  struct_pack1 little_endian F_I (VInt (Z.of_nat length)).

Definition length_struct_unpack_from (little_endian : bool)
    (string : list byte) (offset : nat) : result nat :=
  if (offset + length_struct_size <=? length string)%nat
  then Ok (Z.to_nat (uint_of_bytes little_endian
                       (slice string offset length_struct_size)))
  else Err StructError.

(** ** class Codec *)

(** A [Codec] object is determined by its format string; [size] is set by
    the constructor and never assigned again. *)
Definition Codec_size (self : format) : nat := calcsize self.

Definition Codec_dumps (self : format) (v : value) (little_endian : bool)
  : result (list byte) :=
  struct_pack1 little_endian self v.

Definition Codec_loads (self : format) (string : list byte) (offset : nat)
    (little_endian : bool) : result value :=
  match struct_unpack_from little_endian self 1 string offset with
  | Ok (v :: _) => Ok v
  | Ok [] => Err StructError
  | Err e => Err e
  end.

(** ** class ArrayCodec *)

(** [len(values)] and [*values]: the items of a sized iterable. *)
Definition items_of (values : value) : result (list value) :=
  match values with
  | VTuple items | VList items => Ok items
  | VText s => Ok (map (fun c => VText [c]) s)
  | VBytes bs => Ok (map (fun b => VInt (Z_of_byte b)) bs)
  | _ => Err TypeError
  end.

Definition ArrayCodec_dumps (value_format : format) (values : value)
    (little_endian : bool) : result (list byte) :=
  rbind (items_of values) (fun items =>
  rbind (length_struct_pack little_endian (length items)) (fun string =>
  rbind (struct_pack little_endian value_format items) (fun packed =>
  Ok (string ++ packed)))).

(** [self] is the address of the codec object and its [value_format]. *)
Definition ArrayCodec_loads (self : nat) (value_format : format)
    (string : list byte) (offset : nat) (little_endian : bool) : M value :=
  length <- lift (length_struct_unpack_from little_endian string offset) ;;
  if negb (Nat.eqb length 0) then
    set_array_size self (length * calcsize value_format + length_struct_size)%nat ;;;
    items <- lift (struct_unpack_from little_endian value_format length string
                     (offset + length_struct_size)) ;;
    ret (VTuple items)
  else
    set_array_size self length_struct_size ;;;
    ret (VTuple []).

(** ** class StringCodec *)

Definition StringCodec_dumps (v : value) (little_endian : bool)
  : result (list byte) :=
  match v with
  | VText s =>
      rbind (utf8_encode s) (fun encoded =>
      rbind (length_struct_pack little_endian (length encoded)) (fun prefix =>
      rbind (struct_pack_s (length encoded) encoded) (fun packed =>
      Ok (prefix ++ packed))))
  | _ => Err AssertionError
  end.

Definition StringCodec_loads (string : list byte) (offset : nat)
    (little_endian : bool) : M value :=
  length <- lift (length_struct_unpack_from little_endian string offset) ;;
  if negb (Nat.eqb length 0) then
    set_string_size (length + length_struct_size)%nat ;;;
    raw <- lift (struct_unpack_from_s length string
                   (offset + length_struct_size)) ;;
    s <- lift (utf8_decode raw) ;;
    ret (VText s)
  else
    set_string_size length_struct_size ;;;
    ret (VText []).

(** ** The codec table and dynamic dispatch *)

(** A reference to a codec object: one of the [Codec]s of the table, the
    [StringCodec] of the table, or an [ArrayCodec] by address. *)
Inductive codec : Type :=
  | PrimCodec (fmt : format)
  | StrCodec
  | ArrCodec (loc : nat) (value_format : format).

Definition _codecs (tag : string) : option codec :=
  if String.eqb tag "boolean" then Some (PrimCodec F_bool)
  else if String.eqb tag "float32" then Some (PrimCodec F_f)
  else if String.eqb tag "float64" then Some (PrimCodec F_d)
  else if String.eqb tag "int8" then Some (PrimCodec F_b)
  else if String.eqb tag "int16" then Some (PrimCodec F_h)
  else if String.eqb tag "int32" then Some (PrimCodec F_i)
  else if String.eqb tag "string" then Some StrCodec
  else if String.eqb tag "uint8" then Some (PrimCodec F_B)
  else if String.eqb tag "uint16" then Some (PrimCodec F_H)
  else if String.eqb tag "uint32" then Some (PrimCodec F_I)
  else None.

(** [codec.dumps(value, little_endian)] *)
Definition codec_dumps (c : codec) (v : value) (little_endian : bool)
  : result (list byte) :=
  match c with
  | PrimCodec fmt => Codec_dumps fmt v little_endian
  | StrCodec => StringCodec_dumps v little_endian
  | ArrCodec _ value_format => ArrayCodec_dumps value_format v little_endian
  end.

(** [codec.loads(string, offset, little_endian)] *)
Definition codec_loads (c : codec) (string : list byte) (offset : nat)
    (little_endian : bool) : M value :=
  match c with
  | PrimCodec fmt => lift (Codec_loads fmt string offset little_endian)
  | StrCodec => StringCodec_loads string offset little_endian
  | ArrCodec l value_format =>
      ArrayCodec_loads l value_format string offset little_endian
  end.

(** [codec.size]: an [AttributeError] while no [loads] has set it. *)
Definition codec_size (c : codec) : M nat :=
  fun h =>
    match c with
    | PrimCodec fmt => (h, Ok (Codec_size fmt))
    | StrCodec =>
        (h, match string_size h with
            | Some n => Ok n
            | None => Err AttributeError
            end)
    | ArrCodec l _ =>
        (h, match array_size h !! l with
            | Some n => Ok n
            | None => Err AttributeError
            end)
    end.

(** ** class Field *)

Record Field : Type := {
  field_key : string;
  field_type : string;
  field_value_type : option string;
  field_codec : codec
}.

(** [Field.__init__(key, type, value_type=None)]. Building an array field
    constructs a new [ArrayCodec] from the format of the item codec. *)
Definition Field_init (key type : string) (value_type : option string)
  : M Field :=
  if String.eqb key "" then raise ValueError
  else if String.eqb type "array" then
    match value_type with
    | Some vt =>
        if String.eqb vt "array" || String.eqb vt "string" then raise ValueError
        else
          match _codecs vt with
          | Some (PrimCodec fmt) =>
              l <- alloc ;;
              ret {| field_key := key; field_type := type;
                     field_value_type := value_type;
                     field_codec := ArrCodec l fmt |}
          | Some _ => raise AttributeError
          | None => raise ValueError
          end
    | None => raise ValueError
    end
  else
    match _codecs type with
    | Some c =>
        ret {| field_key := key; field_type := type;
               field_value_type := value_type; field_codec := c |}
    | None => raise ValueError
    end.

(** The keyword arguments of one field, as passed to [define]. *)
Record FieldSpec : Type := {
  spec_key : string;
  spec_type : string;
  spec_value_type : option string
}.

(** The list comprehension that builds a [Field] from each [kwargs] of
    [fields], in order. *)
Fixpoint make_fields (fields : list FieldSpec) : M (list Field) :=
  match fields with
  | [] => ret []
  | kwargs :: rest =>
      f <- Field_init (spec_key kwargs) (spec_type kwargs)
             (spec_value_type kwargs) ;;
      fs <- make_fields rest ;;
      ret (f :: fs)
  end.

(** ** class Definition *)

Record Definition_ : Type := {
  def_fields : list Field;
  def_id : option Z;
  def_key : option string;
  def_little_endian : bool
}.

(** [Definition.__init__(fields, id=None, key=None, little_endian=False)] *)
Definition Definition_init (fields : list Field) (id : option Z)
    (key : option string) (little_endian : bool) : Definition_ :=
  {| def_fields := fields; def_id := id; def_key := key;
     def_little_endian := little_endian |}.

(** The loop of [Definition.dumps]; [string] is the accumulator. *)
Fixpoint dumps_fields (fields : list Field) (little_endian : bool)
    (data : gmap string value) (string : list byte) : result (list byte) :=
  match fields with
  | [] => Ok string
  | field :: rest =>
      match data !! field_key field with
      | None => Err KeyError
      | Some v =>
          rbind (codec_dumps (field_codec field) v little_endian) (fun b =>
          dumps_fields rest little_endian data (string ++ b))
      end
  end.

Definition Definition_dumps (self : Definition_) (data : gmap string value)
  : result (list byte) :=
  dumps_fields (def_fields self) (def_little_endian self) data [].

(** What a caller may pass as [string]: [bytes] or text. *)
Inductive pystring : Type :=
  | PyBytes (bs : list byte)
  | PyText (s : list Z).

(** The loop of [Definition.loads]. *)
Fixpoint loads_fields (fields : list Field) (little_endian : bool)
    (string : list byte) (offset : nat) (values : gmap String.string value)
  : M (gmap String.string value) :=
  match fields with
  | [] => ret values
  | field :: rest =>
      v <- codec_loads (field_codec field) string offset little_endian ;;
      size <- codec_size (field_codec field) ;;
      loads_fields rest little_endian string (offset + size)%nat
        (<[field_key field := v]> values)
  end.

Definition Definition_loads (self : Definition_) (string : pystring)
    (offset : nat) : M (gmap String.string value) :=
  bs <- lift (match string with
              | PyText s => utf8_encode s
              | PyBytes bs => Ok bs
              end) ;;
  loads_fields (def_fields self) (def_little_endian self) bs offset ∅.

(** ** class Schema *)

Record Schema : Type := {
  definitions : gmap string Definition_;
  definitions_by_id : gmap Z Definition_;
  id_type : string;
  next_definition_id : Z
}.

(** [Schema.__init__(id_type='uint8')] *)
Definition Schema_init (id_type : string) : Schema :=
  {| definitions := ∅; definitions_by_id := ∅; id_type := id_type;
     next_definition_id := 1 |}.

Definition default_id_type : string := "uint8".

(** [Schema.define(key, fields)]: the definition and the schema after the
    call. When a field is rejected the schema is as it was. *)
Definition Schema_define (self : Schema) (key : string)
    (fields : list FieldSpec) : M (Definition_ * Schema) :=
  fs <- make_fields fields ;;
  let definition :=
    Definition_init fs (Some (next_definition_id self)) (Some key) false in
  ret (definition,
       {| definitions := <[key := definition]> (definitions self);
          definitions_by_id :=
            <[next_definition_id self := definition]> (definitions_by_id self);
          id_type := id_type self;
          next_definition_id := next_definition_id self + 1 |}).

(** [definition.id] as a Python object. *)
Definition id_value (d : Definition_) : value :=
  match def_id d with
  | Some z => VInt z
  | None => VNone
  end.

(** [Schema.dumps(key, data)] *)
Definition Schema_dumps (self : Schema) (key : string)
    (data : gmap string value) : result (list byte) :=
  match definitions self !! key with
  | None => Err KeyError
  | Some definition =>
      match _codecs (id_type self) with
      | None => Err KeyError
      | Some id_codec =>
          rbind (codec_dumps id_codec (id_value definition) false) (fun i =>
          rbind (Definition_dumps definition data) (fun body =>
          Ok (i ++ body)))
      end
  end.

(** [d.get(v)] on a [dict] keyed by [int]: the objects that compare and
    hash equal to an [int] find its entry. *)
Definition get_by_id (d : gmap Z Definition_) (v : value)
  : option Definition_ :=
  match v with
  | VInt z => d !! z
  | VBool b => d !! (if b then 1 else 0)
  | VFloat bits =>
      match int_of_float bits with
      | Some z => d !! z
      | None => None
      end
  | _ => None
  end.

(** [Schema.loads(string)]. A codec's [loads] takes [bytes] only. *)
Definition Schema_loads (self : Schema) (string : pystring)
  : M (gmap String.string value) :=
  match _codecs (id_type self) with
  | None => raise KeyError
  | Some id_codec =>
      match string with
      | PyText _ => raise TypeError
      | PyBytes bs =>
          definition_id <- codec_loads id_codec bs 0 false ;;
          match get_by_id (definitions_by_id self) definition_id with
          | None => raise KeyError
          | Some definition =>
              size <- codec_size id_codec ;;
              Definition_loads definition string size
          end
      end
  end.

(** The module-level [define(field_kwargs)] *)
Definition define (field_kwargs : list FieldSpec) : M Definition_ :=
  fs <- make_fields field_kwargs ;;
  ret (Definition_init fs None None false).


(** ** Running several calls *)

(** A sequence of [define] calls on one schema, stopping at the first that
    raises; the result is the schema after the calls. *)
Fixpoint define_all (self : Schema) (calls : list (string * list FieldSpec))
  : M Schema :=
  match calls with
  | [] => ret self
  | (key, fields) :: rest =>
      r <- Schema_define self key fields ;;
      define_all (snd r) rest
  end.

(** The schemas a program can build: a new schema, then [define] calls that
    return. A call that raises leaves the schema as it was. *)
Inductive reachable : Schema -> Prop :=
  | reachable_init (id_type : string) : reachable (Schema_init id_type)
  | reachable_define (s s' : Schema) (key : string) (fields : list FieldSpec)
      (h h' : Heap) (d : Definition_) :
      reachable s ->
      Schema_define s key fields h = (h', Ok (d, s')) ->
      reachable s'.

(** ** Vocabulary of the specification *)

(** The table of the module docstring: the inclusive range of each integer
    type tag. *)
Definition documented_range (tag : string) : option (Z * Z) :=
  if String.eqb tag "int8" then Some (-128, 127)
  else if String.eqb tag "int16" then Some (-32768, 32767)
  else if String.eqb tag "int32" then Some (-2147483648, 2147483647)
  else if String.eqb tag "uint8" then Some (0, 255)
  else if String.eqb tag "uint16" then Some (0, 65535)
  else if String.eqb tag "uint32" then Some (0, 4294967295)
  else None.

(** A float that is a binary64 pattern and not a NaN (a NaN is unequal to
    every float, itself included). *)
Definition float64_ok (bits : Z) : bool :=
  (0 <=? bits) && (bits <? 2 ^ 64) && negb (is_nan_bits 52 11 bits).

(** A float that binary32 represents exactly: converting to binary32 and
    back gives the same float. *)
Definition float32_exact (bits : Z) : bool :=
  let y := f64_to_f32 bits in
  float64_ok bits && (0 <=? y) && (y <? 2 ^ 32) && (f32_to_f64 y =? bits).

(** A text that UTF-8 can encode (no lone surrogate) in fewer than 2^32
    bytes, the largest length the prefix can hold. *)
Definition text_ok (s : list Z) : bool :=
  match utf8_encode s with
  | Ok encoded => Z.of_nat (length encoded) <? 2 ^ 32
  | Err _ => false
  end.

(** An in-range value of a scalar or string type tag. *)
Definition tag_in_range (tag : string) (v : value) : bool :=
  match documented_range tag with
  | Some (lo, hi) =>
      match v with
      | VInt z => (lo <=? z) && (z <=? hi)
      | _ => false
      end
  | None =>
      if String.eqb tag "boolean" then
        match v with VBool _ => true | _ => false end
      else if String.eqb tag "float64" then
        match v with VFloat bits => float64_ok bits | _ => false end
      else if String.eqb tag "float32" then
        match v with VFloat bits => float32_exact bits | _ => false end
      else if String.eqb tag "string" then
        match v with VText s => text_ok s | _ => false end
      else false
  end.

(** An in-range value of a field's declared type: for an array, a tuple of
    fewer than 2^32 in-range items of the scalar item type. *)
Definition value_in_range (type : string) (value_type : option string)
    (v : value) : bool :=
  if String.eqb type "array" then
    match value_type, v with
    | Some vt, VTuple items =>
        negb (String.eqb vt "string")
        && (Z.of_nat (length items) <? 2 ^ 32)
        && forallb (tag_in_range vt) items
    | _, _ => false
    end
  else tag_in_range type v.

(** The record gives every field of the definition an in-range value and
    has no other key. *)
Definition record_fits (d : Definition_) (data : gmap string value) : Prop :=
  (forall k, is_Some (data !! k) <-> In k (map field_key (def_fields d)))
  /\ (forall f, In f (def_fields d) ->
        exists v, data !! field_key f = Some v
                  /\ value_in_range (field_type f) (field_value_type f) v = true).

(** The id of the definition is in the range of the schema's id type, an
    integer type. *)
Definition id_fits (s : Schema) (d : Definition_) : bool :=
  match documented_range (id_type s), def_id d with
  | Some (lo, hi), Some i => (lo <=? i) && (i <=? hi)
  | _, _ => false
  end.

(** A definition is registered when one of the two maps holds it. *)
Definition registered (s : Schema) (d : Definition_) : Prop :=
  (exists k, definitions s !! k = Some d)
  \/ (exists i, definitions_by_id s !! i = Some d).

(** The errors of the specification's class for values out of range:
    [ValueError] and its subclasses, and the two errors [struct] raises for a
    number it cannot pack. *)
Definition is_value_or_range_error (e : exn) : bool :=
  is_ValueError e
  || match e with StructError | OverflowError => true | _ => false end.

(** [n] calls of [define] with the keys [k1], [k2], ... and the same
    fields. *)
Definition numbered_calls (n : nat) (fields : list FieldSpec)
  : list (string * list FieldSpec) :=
  map (fun i => (String.append "k" (pretty (S i)), fields)) (seq 0 n).

(** The field specifications the specification rejects: an empty key, an
    unknown type, or an array whose item type is missing, is [array] or
    [string], or is not in the codec table. *)
Definition invalid_field_spec (key type : string) (value_type : option string)
  : Prop :=
  key = ""
  \/ (type <> "array" /\ _codecs type = None)
  \/ (type = "array"
      /\ (value_type = None \/ value_type = Some "array"
          \/ value_type = Some "string"
          \/ exists t, value_type = Some t /\ _codecs t = None)).

(** What [Definition.dumps] and [Definition.loads] read of a field. *)
Definition binding (f : Field) : string * codec := (field_key f, field_codec f).

(** The codec of a field is the one its type and item type select. *)
Definition field_ok (f : Field) : Prop :=
  if String.eqb (field_type f) "array"
  then exists t fmt l, field_value_type f = Some t /\ t <> "string"
                       /\ _codecs t = Some (PrimCodec fmt)
                       /\ field_codec f = ArrCodec l fmt
  else _codecs (field_type f) = Some (field_codec f).

(** What holds of a schema after any sequence of [define] calls. *)
Record Schema_inv (s : Schema) : Prop := {
  inv_next : 1 <= next_definition_id s;
  inv_by_id : forall i d, definitions_by_id s !! i = Some d ->
      1 <= i < next_definition_id s /\ def_id d = Some i;
  inv_ids : forall i, 1 <= i < next_definition_id s ->
      is_Some (definitions_by_id s !! i);
  inv_by_key : forall k d, definitions s !! k = Some d ->
      def_key d = Some k
      /\ exists i, def_id d = Some i /\ definitions_by_id s !! i = Some d;
  inv_latest : forall i d, definitions_by_id s !! i = Some d ->
      exists k d' j, def_key d = Some k /\ definitions s !! k = Some d'
                     /\ def_id d' = Some j /\ i <= j;
  inv_big_endian : forall d, registered s d -> def_little_endian d = false;
  inv_fields : forall d, registered s d -> Forall field_ok (def_fields d)
}.

(** The reading of C7 under which every registered definition is in both
    maps. *)
Definition in_both_maps (s : Schema) : Prop :=
  forall d, registered s d ->
    (exists k, definitions s !! k = Some d)
    /\ (exists i, definitions_by_id s !! i = Some d).

(** The values a format packs and unpacks to the same value. *)
Definition scalar_ok (f : format) (v : value) : bool :=
  match f, v with
  | F_bool, VBool _ => true
  | F_d, VFloat bits => float64_ok bits
  | F_f, VFloat bits => float32_exact bits
  | _, VInt z =>
      match int_bounds f with
      | Some (lo, hi) => (lo <=? z) && (z <=? hi)
      | None => false
      end
  | _, _ => false
  end.

(** The values a codec dumps and loads back to the same value. *)
Definition codec_ok (c : codec) (v : value) : bool :=
  match c, v with
  | PrimCodec fmt, _ => scalar_ok fmt v
  | StrCodec, VText s => text_ok s
  | ArrCodec _ value_format, VTuple items =>
      (Z.of_nat (length items) <? 2 ^ 32)
      && forallb (scalar_ok value_format) items
  | _, _ => false
  end.

(** The dictionary [Definition.loads] builds from [values] when each field
    decodes to the value that [data] has under the key of the field. *)
Definition loaded (fields : list Field) (data values : gmap string value)
  : gmap string value :=
  fold_left (fun m f => match data !! field_key f with
                        | Some v => <[field_key f := v]> m
                        | None => m
                        end) fields values.

(** ** The schema of [test_schema] *)

Definition field_spec (key type : string) (value_type : option string)
  : FieldSpec :=
  {| spec_key := key; spec_type := type; spec_value_type := value_type |}.

Definition spawn_fields : list FieldSpec :=
  [ field_spec "entity_id" "int32" None;
    field_spec "x" "float64" None;
    field_spec "y" "float64" None;
    field_spec "points" "array" (Some "float64");
    field_spec "health" "int16" None ].

Definition position_fields : list FieldSpec :=
  [ field_spec "entity_id" "int32" None;
    field_spec "x" "float64" None;
    field_spec "y" "float64" None ].

Definition test_calls : list (string * list FieldSpec) :=
  [ ("spawn", spawn_fields); ("position", position_fields) ].

(** The floats 0.5, 1.5, 0.1, 0.2, 0.3 and 0.4 as binary64 patterns. *)
Definition spawn_value : gmap string value :=
  <["entity_id" := VInt 1]>
  (<["x" := VFloat 0x3FE0000000000000]>
  (<["y" := VFloat 0x3FF8000000000000]>
  (<["points" := VTuple [VFloat 0x3FB999999999999A; VFloat 0x3FC999999999999A;
                         VFloat 0x3FD3333333333333; VFloat 0x3FD999999999999A]]>
  (<["health" := VInt 100]> ∅)))).

Definition spawn_bytes : list byte :=
  [x01;
   x00; x00; x00; x01;
   x3f; xe0; x00; x00; x00; x00; x00; x00;
   x3f; xf8; x00; x00; x00; x00; x00; x00;
   x00; x00; x00; x04;
   x3f; xb9; x99; x99; x99; x99; x99; x9a;
   x3f; xc9; x99; x99; x99; x99; x99; x9a;
   x3f; xd3; x33; x33; x33; x33; x33; x33;
   x3f; xd9; x99; x99; x99; x99; x99; x9a;
   x00; x64].

(** What [Codec.loads] can return for a format: an integer in the range of
    an integer format, a bool for ['?'], a float for ['f'] and ['d']. *)
Definition decoded_ok (f : format) (v : value) : bool :=
  match f, v with
  | F_bool, VBool _ => true
  | F_f, VFloat _ | F_d, VFloat _ => true
  | _, VInt z =>
      match int_bounds f with
      | Some (lo, hi) => (lo <=? z) && (z <=? hi)
      | None => false
      end
  | _, _ => false
  end.

(** The formats whose every byte string of the right size is the encoding
    of the value it decodes to: the integers and ['d']. *)
Definition exact_format (f : format) : bool :=
  match f with
  | F_bool | F_f => false
  | _ => true
  end.

(** A field specification that [Field.__init__] rejects. *)
Definition invalid_spec (kwargs : FieldSpec) : Prop :=
  invalid_field_spec (spec_key kwargs) (spec_type kwargs)
    (spec_value_type kwargs).

(** The bytes of one field in the output of [Definition.dumps]. *)
Definition field_piece (little_endian : bool) (data : gmap string value)
    (f : Field) (b : list byte) : Prop :=
  exists v, data !! field_key f = Some v
            /\ codec_dumps (field_codec f) v little_endian = Ok b.

(** * Properties *)

(** ** Bytes and integers *)

Lemma Z_of_byte_range (b : byte) : 0 <= Z_of_byte b < 256.
Proof.
  unfold Z_of_byte. pose proof (Byte.to_N_bounded b). lia.
Qed.

Lemma byte_of_Z_of_byte (b : byte) : byte_of_Z (Z_of_byte b) = b.
Proof.
  unfold byte_of_Z. pose proof (Z_of_byte_range b) as Hb.
  rewrite Z.mod_small by lia. unfold Z_of_byte.
  rewrite N2Z.id, Byte.of_to_N. reflexivity.
Qed.

Lemma Z_of_byte_of_Z (z : Z) : Z_of_byte (byte_of_Z z) = z mod 256.
Proof.
  unfold byte_of_Z, Z_of_byte.
  pose proof (Z.mod_pos_bound z 256 ltac:(lia)) as Hm.
  destruct (Byte.of_N (Z.to_N (z mod 256))) as [b|] eqn:E.
  - apply Byte.to_of_N in E. rewrite E. lia.
  - apply Byte.of_N_None_iff in E. lia.
Qed.

Lemma length_le_bytes (n : nat) (u : Z) : length (le_bytes n u) = n.
Proof.
  revert u. induction n as [|n IH]; intros u; simpl; [reflexivity|].
  now rewrite IH.
Qed.

Lemma le_int_le_bytes (n : nat) (u : Z) :
  le_int (le_bytes n u) = u mod 256 ^ Z.of_nat n.
Proof.
  revert u. induction n as [|n IH]; intros u.
  - simpl. now rewrite Z.mod_1_r.
  - cbn [le_bytes le_int]. rewrite IH, Z_of_byte_of_Z.
    rewrite Nat2Z.inj_succ, Z.pow_succ_r by lia.
    rewrite Z.rem_mul_r by lia. reflexivity.
Qed.

Lemma le_int_range (bs : list byte) :
  0 <= le_int bs < 256 ^ Z.of_nat (length bs).
Proof.
  induction bs as [|b bs IH].
  - simpl. lia.
  - cbn [le_int length]. pose proof (Z_of_byte_range b).
    rewrite Nat2Z.inj_succ, Z.pow_succ_r by lia. lia.
Qed.

Lemma le_bytes_le_int (bs : list byte) : le_bytes (length bs) (le_int bs) = bs.
Proof.
  induction bs as [|b bs IH]; [reflexivity|].
  cbn [length le_bytes le_int]. pose proof (Z_of_byte_range b) as Hb.
  assert (Hm : (Z_of_byte b + 256 * le_int bs) mod 256 = Z_of_byte b).
  { symmetry. apply Z.mod_unique with (q := le_int bs); lia. }
  assert (Hd : (Z_of_byte b + 256 * le_int bs) / 256 = le_int bs).
  { symmetry. apply Z.div_unique with (r := Z_of_byte b); lia. }
  rewrite Hd, IH. f_equal.
  unfold byte_of_Z. rewrite Hm. fold (byte_of_Z (Z_of_byte b)).
  rewrite <- (Z.mod_small (Z_of_byte b) 256) by lia.
  apply byte_of_Z_of_byte.
Qed.

Lemma order_bytes_involutive (le : bool) (bs : list byte) :
  order_bytes le (order_bytes le bs) = bs.
Proof. destruct le; simpl; [reflexivity | apply rev_involutive]. Qed.

Lemma length_order_bytes (le : bool) (bs : list byte) :
  length (order_bytes le bs) = length bs.
Proof. destruct le; simpl; [reflexivity | apply length_rev]. Qed.

Lemma length_uint_to_bytes (le : bool) (n : nat) (u : Z) :
  length (uint_to_bytes le n u) = n.
Proof. unfold uint_to_bytes. now rewrite length_order_bytes, length_le_bytes. Qed.

Lemma uint_of_to_bytes (le : bool) (n : nat) (u : Z) :
  uint_of_bytes le (uint_to_bytes le n u) = u mod 256 ^ Z.of_nat n.
Proof.
  unfold uint_of_bytes, uint_to_bytes.
  now rewrite order_bytes_involutive, le_int_le_bytes.
Qed.

Lemma uint_to_of_bytes (le : bool) (bs : list byte) :
  uint_to_bytes le (length bs) (uint_of_bytes le bs) = bs.
Proof.
  unfold uint_of_bytes, uint_to_bytes.
  rewrite <- (length_order_bytes le bs), le_bytes_le_int.
  apply order_bytes_involutive.
Qed.

Lemma uint_of_bytes_range (le : bool) (bs : list byte) :
  0 <= uint_of_bytes le bs < 256 ^ Z.of_nat (length bs).
Proof.
  unfold uint_of_bytes. rewrite <- (length_order_bytes le bs). apply le_int_range.
Qed.

(** ** Slices of a buffer *)

Lemma slice_app (pre b post : list byte) :
  slice (pre ++ b ++ post) (length pre) (length b) = b.
Proof.
  unfold slice. rewrite drop_app_length. apply take_app_length.
Qed.

Lemma length_chunks (size count : nat) (bs : list byte) :
  length (chunks size count bs) = count.
Proof.
  revert bs. induction count as [|c IH]; intros bs; simpl; [reflexivity|].
  now rewrite IH.
Qed.

Lemma length_struct_unpack_from_app (le : bool) (pre b post : list byte) :
  length b = length_struct_size ->
  length_struct_unpack_from le (pre ++ b ++ post) (length pre)
  = Ok (Z.to_nat (uint_of_bytes le b)).
Proof.
  intros Hb. unfold length_struct_unpack_from.
  rewrite <- Hb, slice_app.
  replace (length pre + length b <=? length (pre ++ b ++ post))%nat with true;
    [reflexivity|].
  symmetry. apply Nat.leb_le. rewrite !length_app. lia.
Qed.

(** ** Integer ranges *)

Lemma documented_range_codec (tag : string) (lo hi : Z) :
  documented_range tag = Some (lo, hi) ->
  exists fmt, _codecs tag = Some (PrimCodec fmt)
              /\ int_bounds fmt = Some (lo, hi).
Proof.
  unfold documented_range. intros H.
  repeat match type of H with
         | (if String.eqb ?t ?c then _ else _) = _ =>
             destruct (String.eqb_spec t c) as [->|];
             [injection H as <- <-; eexists; split; reflexivity|]
         end.
  discriminate.
Qed.

Lemma struct_pack1_out_of_range (le : bool) (f : format) (lo hi z : Z) :
  int_bounds f = Some (lo, hi) -> z < lo \/ hi < z ->
  struct_pack1 le f (VInt z) = Err StructError.
Proof.
  intros Hb Hz.
  assert (Hc : (lo <=? z) && (z <=? hi) = false).
  { apply andb_false_iff. destruct Hz; [left | right]; lia. }
  destruct f; simpl in Hb; try discriminate;
    injection Hb as <- <-;
    cbv beta iota delta [struct_pack1 as_index int_bounds];
    now rewrite Hc.
Qed.

(** C3. For each of the six integer type tags of the docstring table,
    encoding an integer below or above the documented range with the codec
    of the tag raises [struct.error]: no byte is produced, so nothing is
    truncated or wrapped. *)
Theorem integer_out_of_range_raises (tag : string) (lo hi z : Z) (le : bool) :
  documented_range tag = Some (lo, hi) ->
  z < lo \/ hi < z ->
  exists c, _codecs tag = Some c
            /\ codec_dumps c (VInt z) le = Err StructError.
Proof.
  intros Hr Hz. destruct (documented_range_codec _ _ _ Hr) as (f & Hc & Hb).
  exists (PrimCodec f). split; [exact Hc|].
  simpl. unfold Codec_dumps. eapply struct_pack1_out_of_range; eauto.
Qed.

Lemma integer_out_of_range_raises_witness :
  (exists c, _codecs "uint8" = Some c
             /\ codec_dumps c (VInt 256) false = Err StructError)
  /\ (exists c, _codecs "int8" = Some c
                /\ codec_dumps c (VInt (-129)) false = Err StructError).
Proof.
  split.
  - apply (integer_out_of_range_raises "uint8" 0 255 256 false);
      [reflexivity | lia].
  - apply (integer_out_of_range_raises "int8" (-128) 127 (-129) false);
      [reflexivity | lia].
Defined.

(** ** The string codec and non-text input *)

(** The claim of C4 fails on a [bytes] object: the error raised is an
    [AssertionError], which is neither a [ValueError] nor one of the errors
    raised for a number out of range. *)
Lemma string_codec_bytes_error_class :
  ~ (exists e, StringCodec_dumps (VBytes ["a"%byte]) false = Err e
               /\ is_value_or_range_error e = true).
Proof.
  intros (e & He & Hc). simpl in He. injection He as <-. discriminate Hc.
Qed.

(** C4, amended. Whatever is not a text makes [StringCodec.dumps] fail at
    its assertion, before anything is encoded: the result is an
    [AssertionError] and no bytes. *)
Theorem string_codec_rejects_non_text (v : value) (le : bool) :
  (forall s, v <> VText s) ->
  StringCodec_dumps v le = Err AssertionError
  /\ is_value_or_range_error AssertionError = false.
Proof.
  intros Hv. split; [|reflexivity].
  destruct v; try reflexivity. now destruct (Hv s).
Qed.

Lemma string_codec_rejects_non_text_witness :
  StringCodec_dumps (VBytes ["a"%byte]) true = Err AssertionError
  /\ is_value_or_range_error AssertionError = false.
Proof.
  apply (string_codec_rejects_non_text (VBytes ["a"%byte]) true).
  intros s. discriminate.
Defined.

(** ** The array codec *)

Lemma ArrayCodec_loads_sized (l : nat) (vf : format) (string : list byte)
    (offset n : nat) (le : bool) (h : Heap) :
  length_struct_unpack_from le string offset = Ok n ->
  (offset + length_struct_size + n * calcsize vf <= length string)%nat ->
  exists h' items,
    ArrayCodec_loads l vf string offset le h = (h', Ok (VTuple items))
    /\ length items = n
    /\ codec_size (ArrCodec l vf) h'
       = (h', Ok (length_struct_size + n * calcsize vf)%nat).
Proof.
  intros Hn Hlen. unfold ArrayCodec_loads, bind, lift. rewrite Hn.
  destruct n as [|n].
  - simpl. eexists _, []. split; [reflexivity|]. split; [reflexivity|].
    simpl. now rewrite lookup_insert_eq.
  - cbn [Nat.eqb negb set_array_size]. unfold struct_unpack_from.
    replace (offset + length_struct_size + S n * calcsize vf <=? length string)%nat
      with true.
    2:{ symmetry. apply Nat.leb_le. exact Hlen. }
    unfold ret. eexists _, _. split; [reflexivity|]. split.
    + now rewrite length_map, length_chunks.
    + unfold codec_size. cbn [array_size]. rewrite lookup_insert_eq.
      do 2 f_equal. apply Nat.add_comm.
Qed.

(** C6. For an array codec of any item format and either byte order:
    dumping an empty tuple or list gives the four zero bytes of the length
    prefix and nothing else; loading at a zero prefix gives the empty tuple
    and sets the consumed size to 4; and loading at a prefix [n] from a buffer
    that holds the items gives [n] items and sets the consumed size to
    [4 + n * calcsize]. *)
Theorem array_codec_empty_and_consumed (l : nat) (vf : format) (le : bool)
    (h : Heap) :
  ArrayCodec_dumps vf (VTuple []) le = Ok [x00; x00; x00; x00]
  /\ ArrayCodec_dumps vf (VList []) le = Ok [x00; x00; x00; x00]
  /\ (forall pre post,
        exists h',
          ArrayCodec_loads l vf (pre ++ [x00; x00; x00; x00] ++ post)
            (length pre) le h = (h', Ok (VTuple []))
          /\ codec_size (ArrCodec l vf) h' = (h', Ok 4%nat))
  /\ (forall string offset n,
        length_struct_unpack_from le string offset = Ok n ->
        (offset + 4 + n * calcsize vf <= length string)%nat ->
        exists h' items,
          ArrayCodec_loads l vf string offset le h = (h', Ok (VTuple items))
          /\ length items = n
          /\ codec_size (ArrCodec l vf) h'
             = (h', Ok (4 + n * calcsize vf)%nat)).
Proof.
  split; [now destruct le|]. split; [now destruct le|]. split.
  - intros pre post.
    destruct (ArrayCodec_loads_sized l vf (pre ++ [x00; x00; x00; x00] ++ post)
                (length pre) 0 le h) as (h' & items & Hl & Hn & Hs).
    + rewrite length_struct_unpack_from_app by reflexivity. now destruct le.
    + rewrite !length_app. simpl. unfold length_struct_size. simpl. lia.
    + destruct items; [|discriminate]. now exists h'.
  - intros string offset n Hn Hlen.
    now apply ArrayCodec_loads_sized.
Qed.

(** ** Field construction *)

Lemma _codecs_cases (tag : string) (c : codec) :
  _codecs tag = Some c ->
  (exists fmt, c = PrimCodec fmt) \/ (c = StrCodec /\ tag = "string").
Proof.
  unfold _codecs. intros H.
  repeat match type of H with
         | (if String.eqb ?t ?k then _ else _) = _ =>
             destruct (String.eqb_spec t k) as [->|];
             [injection H as <-; eauto|]
         end.
  discriminate.
Qed.

Lemma _codecs_array : _codecs "array" = None.
Proof. reflexivity. Qed.

Lemma Field_init_fails_iff (key type : string) (vt : option string) (h : Heap) :
  (exists e, snd (Field_init key type vt h) = Err e)
  <-> invalid_field_spec key type vt.
Proof.
  unfold Field_init, invalid_field_spec.
  destruct (String.eqb_spec key "") as [->|Hk].
  { split; [now left | intros _; now exists ValueError]. }
  destruct (String.eqb_spec type "array") as [->|Ht].
  - destruct vt as [t|].
    2:{ split; [intros _; right; right; eauto | intros _; now exists ValueError]. }
    destruct (String.eqb_spec t "array") as [->|Ha].
    { split; [intros _; right; right; eauto | intros _; now exists ValueError]. }
    destruct (String.eqb_spec t "string") as [->|Hs].
    { split; [intros _; right; right; eauto 6 | intros _; now exists ValueError]. }
    cbn [orb]. destruct (_codecs t) as [c|] eqn:E.
    + destruct (_codecs_cases _ _ E) as [[fmt ->]|[-> ->]]; [|contradiction].
      split; [intros [e He]; discriminate He|].
      intros [?|[[? _]|[_ [?|[?|[?|(t' & ? & ?)]]]]]]; congruence.
    + split; [intros _; right; right; eauto 8 | intros _; now exists ValueError].
  - destruct (_codecs type) as [c|] eqn:E.
    + split; [intros [e He]; discriminate He|].
      intros [?|[[_ ?]|[? _]]]; congruence.
    + split; [intros _; right; left; eauto | intros _; now exists ValueError].
Qed.

Lemma Field_init_error (key type : string) (vt : option string) (h : Heap)
    (e : exn) :
  snd (Field_init key type vt h) = Err e ->
  e = ValueError /\ fst (Field_init key type vt h) = h.
Proof.
  unfold Field_init.
  destruct (String.eqb key ""); [intros [= <-]; now split|].
  destruct (String.eqb type "array").
  - destruct vt as [t|]; [|intros [= <-]; now split].
    destruct (String.eqb_spec t "array") as [->|Ha]; [intros [= <-]; now split|].
    destruct (String.eqb_spec t "string") as [->|Hs]; [intros [= <-]; now split|].
    cbn [orb]. destruct (_codecs t) as [c|] eqn:E; [|intros [= <-]; now split].
    destruct (_codecs_cases _ _ E) as [[fmt ->]|[-> ->]]; [|contradiction].
    discriminate.
  - destruct (_codecs type); [discriminate | intros [= <-]; now split].
Qed.

Lemma Field_init_binds (key type : string) (vt : option string) (h h' : Heap)
    (f : Field) :
  Field_init key type vt h = (h', Ok f) ->
  field_key f = key /\ field_type f = type /\ field_value_type f = vt
  /\ (if String.eqb type "array"
      then exists t fmt, vt = Some t /\ t <> "string"
                         /\ _codecs t = Some (PrimCodec fmt)
                         /\ field_codec f = ArrCodec (next_loc h) fmt
                         /\ next_loc h' = S (next_loc h)
      else _codecs type = Some (field_codec f) /\ h' = h).
Proof.
  unfold Field_init.
  destruct (String.eqb key ""); [discriminate|].
  destruct (String.eqb type "array").
  - destruct vt as [t|]; [|discriminate].
    destruct (String.eqb_spec t "array") as [->|Ha]; [discriminate|].
    destruct (String.eqb_spec t "string") as [->|Hs]; [discriminate|].
    cbn [orb]. destruct (_codecs t) as [[fmt| |]|] eqn:E; try discriminate.
    intros [= <- <-]. cbn. repeat split; eauto 10.
  - destruct (_codecs type) as [c|] eqn:E; [|discriminate].
    intros [= <- <-]. cbn. repeat split; eauto.
Qed.

Lemma dumps_fields_binding (fs fs' : list Field) (le : bool)
    (data : gmap string value) (acc : list byte) :
  map binding fs = map binding fs' ->
  dumps_fields fs le data acc = dumps_fields fs' le data acc.
Proof.
  revert fs' acc. induction fs as [|f fs IH]; intros [|f' fs'] acc Hm;
    try discriminate; [reflexivity|].
  cbn [map] in Hm. unfold binding in Hm. injection Hm as Hk Hc Hm.
  cbn [dumps_fields]. rewrite Hk, Hc.
  destruct (data !! field_key f') as [v|]; [|reflexivity].
  destruct (codec_dumps (field_codec f') v le); cbn [rbind]; [|reflexivity].
  now apply IH.
Qed.

Lemma loads_fields_binding (fs fs' : list Field) (le : bool)
    (buf : list byte) (offset : nat) (values : gmap string value) (h : Heap) :
  map binding fs = map binding fs' ->
  loads_fields fs le buf offset values h
  = loads_fields fs' le buf offset values h.
Proof.
  revert fs' offset values h.
  induction fs as [|f fs IH]; intros [|f' fs'] offset values h Hm;
    try discriminate; [reflexivity|].
  cbn [map] in Hm. unfold binding in Hm. injection Hm as Hk Hc Hm.
  cbn [loads_fields]. unfold bind. rewrite Hk, Hc.
  destruct (codec_loads (field_codec f') buf offset le h) as [h1 [v|e]];
    [|reflexivity].
  destruct (codec_size (field_codec f') h1) as [h2 [n|e]]; [|reflexivity].
  now apply IH.
Qed.

(** C5. [Field.__init__] raises, and then a [ValueError] that leaves the
    heap as it was, exactly when the key is empty, or the type is unknown, or
    the type is [array] and the item type is missing, is [array] or [string],
    or is not in the codec table. A field that is built keeps its arguments
    and is bound to one codec: the entry of the table for its type or, for an
    array, a new [ArrayCodec] on the format of the item type. Dumping and
    loading read the key and the codec of a field and nothing else, so no
    validation is left to them. *)
Theorem field_construction (key type : string) (vt : option string) (h : Heap) :
  ((exists e, snd (Field_init key type vt h) = Err e)
   <-> invalid_field_spec key type vt)
  /\ (forall e, snd (Field_init key type vt h) = Err e ->
        e = ValueError /\ fst (Field_init key type vt h) = h)
  /\ (forall h' f, Field_init key type vt h = (h', Ok f) ->
        field_key f = key /\ field_type f = type /\ field_value_type f = vt
        /\ (if String.eqb type "array"
            then exists t fmt, vt = Some t /\ t <> "string"
                               /\ _codecs t = Some (PrimCodec fmt)
                               /\ field_codec f = ArrCodec (next_loc h) fmt
                               /\ next_loc h' = S (next_loc h)
            else _codecs type = Some (field_codec f) /\ h' = h))
  /\ (forall fs fs' le data acc buf offset values h0,
        map binding fs = map binding fs' ->
        dumps_fields fs le data acc = dumps_fields fs' le data acc
        /\ loads_fields fs le buf offset values h0
           = loads_fields fs' le buf offset values h0).
Proof.
  split; [apply Field_init_fails_iff|].
  split; [apply Field_init_error|].
  split; [apply Field_init_binds|].
  intros. split; [now apply dumps_fields_binding | now apply loads_fields_binding].
Qed.

(** ** What [loads] does to the codec object *)

(** The claim of C2 fails on the string codec of the table and on an array
    codec: after [loads] of a four-byte buffer the codec has a [size]
    attribute it did not have before. *)
Lemma codec_loads_sets_size :
  fst (codec_loads StrCodec [x00; x00; x00; x00] 0 false empty_heap)
  <> empty_heap
  /\ fst (codec_loads (ArrCodec 0 F_d) [x00; x00; x00; x00] 0 false empty_heap)
     <> empty_heap.
Proof.
  split; intros H.
  - apply (f_equal string_size) in H. discriminate H.
  - apply (f_equal (fun h => array_size h !! O)) in H. discriminate H.
Qed.

Lemma StringCodec_loads_heap (buf : list byte) (offset : nat) (le : bool)
    (h : Heap) :
  let h' := fst (StringCodec_loads buf offset le h) in
  array_size h' = array_size h /\ next_loc h' = next_loc h
  /\ match length_struct_unpack_from le buf offset with
     | Ok n => string_size h' = Some (n + 4)%nat
     | Err _ => h' = h
     end.
Proof.
  unfold StringCodec_loads, bind, lift.
  destruct (length_struct_unpack_from le buf offset) as [n|e]; [|now cbn].
  destruct n as [|n]; [now cbn|].
  cbn [Nat.eqb negb set_string_size].
  destruct (struct_unpack_from_s (S n) buf (offset + length_struct_size))
    as [raw|e]; [|now cbn].
  destruct (utf8_decode raw) as [s|e]; now cbn.
Qed.

Lemma ArrayCodec_loads_heap (l : nat) (vf : format) (buf : list byte)
    (offset : nat) (le : bool) (h : Heap) :
  let h' := fst (ArrayCodec_loads l vf buf offset le h) in
  string_size h' = string_size h /\ next_loc h' = next_loc h
  /\ (forall l', l' <> l -> array_size h' !! l' = array_size h !! l')
  /\ match length_struct_unpack_from le buf offset with
     | Ok n => array_size h' !! l = Some (n * calcsize vf + 4)%nat
     | Err _ => h' = h
     end.
Proof.
  unfold ArrayCodec_loads, bind, lift.
  destruct (length_struct_unpack_from le buf offset) as [n|e]; [|now cbn].
  destruct n as [|n].
  - cbn. repeat split; [|apply lookup_insert_eq].
    intros l' Hl. now apply lookup_insert_ne.
  - cbn [Nat.eqb negb set_array_size].
    destruct (struct_unpack_from le vf (S n) buf (offset + length_struct_size))
      as [items|e]; cbn [fst string_size next_loc array_size ret];
      (repeat split; [|apply lookup_insert_eq]);
      intros l' Hl; now apply lookup_insert_ne.
Qed.

(** C2, amended. [Codec.loads] leaves the heap as it was: the codecs of the
    table other than the string codec are stateless. [StringCodec.loads] and
    [ArrayCodec.loads] are not: once the length prefix is read, the call
    stores the byte count it consumes, 4 plus the payload, in the [size]
    attribute of its codec object, and changes nothing else; when the prefix
    cannot be read the heap is as it was. *)
Theorem loads_codec_state (buf : list byte) (offset : nat) (le : bool)
    (h : Heap) :
  (forall fmt, fst (codec_loads (PrimCodec fmt) buf offset le h) = h)
  /\ (let h' := fst (codec_loads StrCodec buf offset le h) in
      array_size h' = array_size h /\ next_loc h' = next_loc h
      /\ match length_struct_unpack_from le buf offset with
         | Ok n => string_size h' = Some (n + 4)%nat
         | Err _ => h' = h
         end)
  /\ (forall l vf,
        let h' := fst (codec_loads (ArrCodec l vf) buf offset le h) in
        string_size h' = string_size h /\ next_loc h' = next_loc h
        /\ (forall l', l' <> l -> array_size h' !! l' = array_size h !! l')
        /\ match length_struct_unpack_from le buf offset with
           | Ok n => array_size h' !! l = Some (n * calcsize vf + 4)%nat
           | Err _ => h' = h
           end).
Proof.
  split; [reflexivity|]. split.
  - apply StringCodec_loads_heap.
  - intros l vf. apply ArrayCodec_loads_heap.
Qed.

(** ** Schemas: what [define] does *)

Lemma make_fields_ok (fields : list FieldSpec) (h h' : Heap) (fs : list Field) :
  make_fields fields h = (h', Ok fs) -> Forall field_ok fs.
Proof.
  revert h h' fs. induction fields as [|kw rest IH]; intros h h' fs.
  - intros [= <- <-]. constructor.
  - cbn [make_fields]. unfold bind.
    destruct (Field_init (spec_key kw) (spec_type kw) (spec_value_type kw) h)
      as [h1 [f|e]] eqn:Ef; [|discriminate].
    destruct (make_fields rest h1) as [h2 [fs'|e]] eqn:Er; [|discriminate].
    intros [= <- <-]. constructor; [|eauto].
    apply Field_init_binds in Ef as (Hk & Ht & Hv & Hc).
    unfold field_ok. rewrite Ht, Hv.
    destruct (String.eqb (spec_type kw) "array").
    + destruct Hc as (t & fmt & ? & ? & ? & ? & _). eauto 10.
    + apply Hc.
Qed.

Lemma Schema_define_ok (s s' : Schema) (key : string) (fields : list FieldSpec)
    (h h' : Heap) (d : Definition_) :
  Schema_define s key fields h = (h', Ok (d, s')) ->
  exists fs,
    make_fields fields h = (h', Ok fs)
    /\ d = Definition_init fs (Some (next_definition_id s)) (Some key) false
    /\ s' = {| definitions := <[key := d]> (definitions s);
               definitions_by_id :=
                 <[next_definition_id s := d]> (definitions_by_id s);
               id_type := id_type s;
               next_definition_id := next_definition_id s + 1 |}.
Proof.
  unfold Schema_define, bind.
  destruct (make_fields fields h) as [h1 [fs|e]]; [|discriminate].
  intros [= <- <- <-]. now exists fs.
Qed.

Lemma Schema_define_total (s : Schema) (key : string) (fields : list FieldSpec)
    (h h' : Heap) (fs : list Field) :
  make_fields fields h = (h', Ok fs) ->
  exists d s', Schema_define s key fields h = (h', Ok (d, s'))
               /\ def_id d = Some (next_definition_id s)
               /\ definitions s' !! key = Some d
               /\ definitions_by_id s' !! next_definition_id s = Some d
               /\ next_definition_id s' = next_definition_id s + 1.
Proof.
  intros Hm. unfold Schema_define, bind. rewrite Hm. unfold ret.
  eexists _, _. split; [reflexivity|]. cbn.
  repeat split; apply lookup_insert_eq.
Qed.

Lemma Schema_inv_init (t : string) : Schema_inv (Schema_init t).
Proof.
  constructor; cbn.
  - lia.
  - intros i d H. now rewrite lookup_empty in H.
  - intros i H. lia.
  - intros k d H. now rewrite lookup_empty in H.
  - intros i d H. now rewrite lookup_empty in H.
  - intros d [[k H]|[i H]]; cbn in H; now rewrite lookup_empty in H.
  - intros d [[k H]|[i H]]; cbn in H; now rewrite lookup_empty in H.
Qed.

Lemma registered_define (s : Schema) (key : string) (d d0 : Definition_)
    (t : string) (n : Z) :
  registered {| definitions := <[key := d]> (definitions s);
                definitions_by_id :=
                  <[next_definition_id s := d]> (definitions_by_id s);
                id_type := t; next_definition_id := n |} d0 ->
  d0 = d \/ registered s d0.
Proof.
  intros [[k H]|[i H]]; cbn in H.
  - destruct (decide (key = k)) as [->|Hne].
    + rewrite lookup_insert_eq in H. left. congruence.
    + rewrite lookup_insert_ne in H by done. right. left. eauto.
  - destruct (decide (next_definition_id s = i)) as [<-|Hne].
    + rewrite lookup_insert_eq in H. left. congruence.
    + rewrite lookup_insert_ne in H by done. right. right. eauto.
Qed.

Lemma Schema_inv_define (s s' : Schema) (key : string)
    (fields : list FieldSpec) (h h' : Heap) (d : Definition_) :
  Schema_inv s ->
  Schema_define s key fields h = (h', Ok (d, s')) ->
  Schema_inv s'.
Proof.
  intros I Hd. destruct (Schema_define_ok _ _ _ _ _ _ _ Hd) as (fs & Hm & Hdef & ->).
  pose proof (inv_next _ I) as Hn.
  constructor; cbn.
  - lia.
  - intros i d0 H. destruct (decide (next_definition_id s = i)) as [<-|Hne].
    + rewrite lookup_insert_eq in H. injection H as <-. subst d. cbn.
      split; [lia | reflexivity].
    + rewrite lookup_insert_ne in H by done.
      destruct (inv_by_id _ I _ _ H). split; [lia | assumption].
  - intros i Hi. destruct (decide (next_definition_id s = i)) as [<-|Hne].
    + rewrite lookup_insert_eq. eauto.
    + rewrite lookup_insert_ne by done. apply (inv_ids _ I). lia.
  - intros k d0 H. destruct (decide (key = k)) as [<-|Hne].
    + rewrite lookup_insert_eq in H. injection H as <-.
      split; [now subst d|]. exists (next_definition_id s).
      split; [now subst d | apply lookup_insert_eq].
    + rewrite lookup_insert_ne in H by done.
      destruct (inv_by_key _ I _ _ H) as (Hk & i & Hi & Hb).
      split; [assumption|]. exists i. split; [assumption|].
      destruct (inv_by_id _ I _ _ Hb) as [Hr _].
      rewrite lookup_insert_ne by lia. assumption.
  - intros i d0 H. destruct (decide (next_definition_id s = i)) as [<-|Hne].
    + rewrite lookup_insert_eq in H. injection H as <-.
      exists key, d, (next_definition_id s).
      rewrite lookup_insert_eq. subst d. cbn. repeat split. lia.
    + rewrite lookup_insert_ne in H by done.
      destruct (inv_latest _ I _ _ H) as (k & d' & j & Hk & Hl & Hj & Hij).
      destruct (inv_by_id _ I _ _ H) as [Hr _].
      destruct (decide (key = k)) as [<-|Hk'].
      * exists key, d, (next_definition_id s). rewrite lookup_insert_eq.
        subst d. cbn. repeat split; [assumption | lia].
      * exists k, d', j. rewrite lookup_insert_ne by done. repeat split; assumption.
  - intros d0 Hr. apply registered_define in Hr as [->|Hr].
    + now subst d.
    + now apply (inv_big_endian _ I).
  - intros d0 Hr. apply registered_define in Hr as [->|Hr].
    + subst d. cbn. eapply make_fields_ok; eauto.
    + now apply (inv_fields _ I).
Qed.

Lemma reachable_inv (s : Schema) : reachable s -> Schema_inv s.
Proof.
  induction 1 as [t|s s' key fields h h' d _ IH Hd].
  - apply Schema_inv_init.
  - eapply Schema_inv_define; eauto.
Qed.

Lemma reachable_define_all (s s' : Schema)
    (calls : list (string * list FieldSpec)) (h h' : Heap) :
  reachable s -> define_all s calls h = (h', Ok s') -> reachable s'.
Proof.
  revert s h. induction calls as [|[key fields] rest IH]; intros s h Hs.
  - intros [= <- <-]. assumption.
  - cbn [define_all]. unfold bind.
    destruct (Schema_define s key fields h) as [h1 [[d s1]|e]] eqn:E;
      [|discriminate].
    cbn [snd]. apply IH. eapply reachable_define; eauto.
Qed.

(** ** Ids and the two maps *)

(** The claim of C7 fails when a key is defined twice: the first definition
    stays in the id map under id 1 and is in the key map no more. *)
Lemma redefinition_leaves_orphan :
  exists h s,
    define_all (Schema_init "uint8") [("a", []); ("a", [])] empty_heap
    = (h, Ok s)
    /\ reachable s /\ ~ in_both_maps s.
Proof.
  pose (d1 := Definition_init [] (Some 1) (Some "a") false).
  pose (d2 := Definition_init [] (Some 2) (Some "a") false).
  exists empty_heap,
    {| definitions := <["a" := d2]> (<["a" := d1]> ∅);
       definitions_by_id := <[2 := d2]> (<[1 := d1]> ∅);
       id_type := "uint8"; next_definition_id := 3 |}.
  assert (E : define_all (Schema_init "uint8") [("a", []); ("a", [])] empty_heap
              = (empty_heap,
                 Ok {| definitions := <["a" := d2]> (<["a" := d1]> ∅);
                       definitions_by_id := <[2 := d2]> (<[1 := d1]> ∅);
                       id_type := "uint8"; next_definition_id := 3 |}))
    by reflexivity.
  split; [exact E|]. split.
  - eapply reachable_define_all; [apply reachable_init | exact E].
  - intros Hboth. destruct (Hboth d1) as [[k Hk] _].
    + right. exists 1. cbn. rewrite lookup_insert_ne by lia.
      apply lookup_insert_eq.
    + cbn in Hk. destruct (decide ("a" = k)) as [<-|Hne].
      * rewrite lookup_insert_eq in Hk. discriminate Hk.
      * rewrite !lookup_insert_ne, lookup_empty in Hk by done. discriminate Hk.
Qed.

(** C7, amended. After any sequence of [define] calls: a new schema starts
    at id 1 and a call that returns gives its definition the next id and
    advances the counter by one, whatever the key; every registered
    definition has an id in [1, next_id), is in the id map under that id, and
    no two registered definitions share an id; every id in [1, next_id) is in
    the id map; a definition in the key map is there under its own key and is
    in the id map too. A definition in the id map need not be in the key map:
    the key map holds, under its key, the definition of that key with the
    largest id. *)
Theorem schema_ids_and_maps (s : Schema) :
  reachable s ->
  (forall t, next_definition_id (Schema_init t) = 1)
  /\ (forall key fields h h' d s',
        Schema_define s key fields h = (h', Ok (d, s')) ->
        def_id d = Some (next_definition_id s)
        /\ next_definition_id s' = next_definition_id s + 1)
  /\ (forall d, registered s d ->
        exists i, def_id d = Some i /\ 1 <= i < next_definition_id s
                  /\ definitions_by_id s !! i = Some d)
  /\ (forall d1 d2, registered s d1 -> registered s d2 ->
        def_id d1 = def_id d2 -> d1 = d2)
  /\ (forall i, 1 <= i < next_definition_id s ->
        is_Some (definitions_by_id s !! i))
  /\ (forall k d, definitions s !! k = Some d ->
        def_key d = Some k
        /\ exists i, def_id d = Some i /\ definitions_by_id s !! i = Some d)
  /\ (forall i d, definitions_by_id s !! i = Some d ->
        exists k d' j, def_key d = Some k /\ definitions s !! k = Some d'
                       /\ def_id d' = Some j /\ i <= j).
Proof.
  intros Hs. pose proof (reachable_inv _ Hs) as I.
  assert (Hreg : forall d, registered s d ->
            exists i, def_id d = Some i /\ 1 <= i < next_definition_id s
                      /\ definitions_by_id s !! i = Some d).
  { intros d [[k H]|[i H]].
    - destruct (inv_by_key _ I _ _ H) as (_ & i & Hi & Hb).
      destruct (inv_by_id _ I _ _ Hb) as [Hr _]. eauto.
    - destruct (inv_by_id _ I _ _ H) as [Hr Hi]. eauto. }
  split; [reflexivity|]. split.
  { intros key fields h h' d s' Hd.
    destruct (Schema_define_ok _ _ _ _ _ _ _ Hd) as (fs & _ & -> & ->).
    now cbn. }
  split; [exact Hreg|]. split.
  { intros d1 d2 H1 H2 Heq.
    destruct (Hreg _ H1) as (i1 & Hi1 & _ & Hb1).
    destruct (Hreg _ H2) as (i2 & Hi2 & _ & Hb2).
    congruence. }
  split; [apply (inv_ids _ I)|].
  split; [apply (inv_by_key _ I) | apply (inv_latest _ I)].
Qed.

Lemma schema_ids_and_maps_witness :
  exists h s,
    define_all (Schema_init "uint8")
      [("spawn", [ {| spec_key := "points"; spec_type := "array";
                      spec_value_type := Some "float64" |} ]);
       ("position", [ {| spec_key := "x"; spec_type := "float64";
                         spec_value_type := None |} ])]
      empty_heap = (h, Ok s)
    /\ (forall d, registered s d ->
          exists i, def_id d = Some i /\ 1 <= i < next_definition_id s
                    /\ definitions_by_id s !! i = Some d).
Proof.
  match goal with
  | |- exists h s, ?c = _ /\ _ =>
      assert (E : exists h s, c = (h, Ok s)) by (vm_compute; eauto)
  end.
  destruct E as (h & s & E). exists h, s. split; [exact E|].
  refine (proj1 (proj2 (proj2 (schema_ids_and_maps s _)))).
  eapply reachable_define_all; [apply (reachable_init "uint8") | exact E].
Defined.

(** ** Redefinition of a key *)

(** C9. Two [define] calls with one key: the second takes a new id and
    replaces the first in the key map; the first stays in the id map under
    its id, and [Schema.loads] of a packet whose id prefix decodes to that
    id loads it with the first definition. *)
Theorem redefinition_keeps_old_id (s s1 s2 : Schema) (key : string)
    (f1 f2 : list FieldSpec) (h0 h1 h1' h2 : Heap) (d1 d2 : Definition_) :
  Schema_define s key f1 h0 = (h1, Ok (d1, s1)) ->
  Schema_define s1 key f2 h1' = (h2, Ok (d2, s2)) ->
  def_id d1 = Some (next_definition_id s)
  /\ def_id d2 = Some (next_definition_id s + 1)
  /\ definitions s1 !! key = Some d1
  /\ definitions s2 !! key = Some d2
  /\ definitions_by_id s2 !! next_definition_id s = Some d1
  /\ definitions_by_id s2 !! (next_definition_id s + 1) = Some d2
  /\ (forall c buf h h',
        _codecs (id_type s) = Some c ->
        codec_loads c buf 0 false h = (h', Ok (VInt (next_definition_id s))) ->
        Schema_loads s2 (PyBytes buf) h
        = (size <- codec_size c ;; Definition_loads d1 (PyBytes buf) size) h').
Proof.
  intros H1 H2.
  destruct (Schema_define_ok _ _ _ _ _ _ _ H1) as (fs1 & _ & Hd1 & Hs1).
  destruct (Schema_define_ok _ _ _ _ _ _ _ H2) as (fs2 & _ & Hd2 & Hs2).
  assert (Hn : next_definition_id s1 = next_definition_id s + 1)
    by (rewrite Hs1; reflexivity).
  rewrite Hn in Hd2, Hs2.
  assert (Hold : definitions_by_id s2 !! next_definition_id s = Some d1).
  { rewrite Hs2. cbn. rewrite lookup_insert_ne by lia.
    rewrite Hs1. cbn. apply lookup_insert_eq. }
  split; [now rewrite Hd1|]. split; [now rewrite Hd2|].
  split; [rewrite Hs1; apply lookup_insert_eq|].
  split; [rewrite Hs2; apply lookup_insert_eq|].
  split; [exact Hold|].
  split; [rewrite Hs2; apply lookup_insert_eq|].
  intros c buf h h' Hc Hl. unfold Schema_loads.
  replace (id_type s2) with (id_type s) by (rewrite Hs2, Hs1; reflexivity).
  rewrite Hc. unfold bind at 1. rewrite Hl. cbn [get_by_id]. rewrite Hold.
  reflexivity.
Qed.

Lemma redefinition_keeps_old_id_witness :
  let fx t := {| field_key := "x"; field_type := t; field_value_type := None;
                 field_codec := PrimCodec (if String.eqb t "uint8"
                                           then F_B else F_H) |} in
  let d1 := Definition_init [fx "uint8"] (Some 1) (Some "a") false in
  let d2 := Definition_init [fx "uint16"] (Some 2) (Some "a") false in
  let s2 := {| definitions := <["a" := d2]> (<["a" := d1]> ∅);
               definitions_by_id := <[2 := d2]> (<[1 := d1]> ∅);
               id_type := "uint8"; next_definition_id := 3 |} in
  definitions s2 !! "a" = Some d2
  /\ definitions_by_id s2 !! 1 = Some d1
  /\ Schema_loads s2 (PyBytes [x01; x07]) empty_heap
     = Definition_loads d1 (PyBytes [x01; x07]) 1 empty_heap.
Proof.
  intros fx d1 d2 s2.
  pose (s1 := {| definitions := <["a" := d1]> ∅;
                 definitions_by_id := <[1 := d1]> ∅;
                 id_type := "uint8"; next_definition_id := 2 |}).
  destruct (redefinition_keeps_old_id (Schema_init "uint8") s1 s2 "a"
              [ {| spec_key := "x"; spec_type := "uint8";
                   spec_value_type := None |} ]
              [ {| spec_key := "x"; spec_type := "uint16";
                   spec_value_type := None |} ]
              empty_heap empty_heap empty_heap empty_heap d1 d2
              eq_refl eq_refl)
    as (_ & _ & _ & H4 & H5 & _ & H7).
  split; [exact H4|]. split; [exact H5|].
  exact (H7 (PrimCodec F_B) [x01; x07] empty_heap empty_heap eq_refl eq_refl).
Defined.

(** ** Byte order *)

(** C10. Every definition made by [Schema.define] or by the module-level
    [define] has [little_endian] false, and so has every definition
    registered in a schema; [Schema.dumps] packs the id prefix and every
    field of the record big-endian. *)
Theorem definitions_are_big_endian :
  (forall s key fields h h' d s',
      Schema_define s key fields h = (h', Ok (d, s')) ->
      def_little_endian d = false)
  /\ (forall fields h h' d,
        define fields h = (h', Ok d) -> def_little_endian d = false)
  /\ (forall s d, reachable s -> registered s d -> def_little_endian d = false)
  /\ (forall s key data bs,
        reachable s -> Schema_dumps s key data = Ok bs ->
        exists d c i body,
          definitions s !! key = Some d
          /\ _codecs (id_type s) = Some c
          /\ codec_dumps c (id_value d) false = Ok i
          /\ dumps_fields (def_fields d) false data [] = Ok body
          /\ bs = i ++ body).
Proof.
  split.
  { intros s key fields h h' d s' Hd.
    destruct (Schema_define_ok _ _ _ _ _ _ _ Hd) as (fs & _ & -> & _).
    reflexivity. }
  split.
  { intros fields h h' d. unfold define, bind.
    destruct (make_fields fields h) as [h1 [fs|e]]; [|discriminate].
    intros [= <- <-]. reflexivity. }
  split.
  { intros s d Hs Hr. now apply (inv_big_endian _ (reachable_inv _ Hs)). }
  intros s key data bs Hs. unfold Schema_dumps.
  destruct (definitions s !! key) as [d|] eqn:Ed; [|discriminate].
  destruct (_codecs (id_type s)) as [c|] eqn:Ec; [|discriminate].
  destruct (codec_dumps c (id_value d) false) as [i|e] eqn:Ei; [|discriminate].
  cbn [rbind]. unfold Definition_dumps.
  rewrite (inv_big_endian _ (reachable_inv _ Hs) d) by (left; eauto).
  destruct (dumps_fields (def_fields d) false data []) as [body|e] eqn:Eb;
    [|discriminate].
  intros [= <-]. exists d, c, i, body. repeat split; assumption.
Qed.

(** ** More definitions than the id type can number *)

Lemma run_ok {A} (c : M A) (P : Heap -> A -> Prop) :
  match c empty_heap with (h, Ok a) => P h a | _ => False end ->
  exists h a, c empty_heap = (h, Ok a) /\ P h a.
Proof. destruct (c empty_heap) as [h [a|e]]; [eauto | contradiction]. Qed.

(** The claim of C8 fails at the 256th [define] of a schema with the
    default id type: the call returns, and the definition is registered under
    id 256. *)
Lemma define_beyond_capacity_returns :
  exists h s,
    define_all (Schema_init default_id_type) (numbered_calls 256 []) empty_heap
    = (h, Ok s)
    /\ exists d, definitions s !! "k256" = Some d
                 /\ definitions_by_id s !! 256 = Some d
                 /\ def_id d = Some 256.
Proof.
  apply (run_ok (define_all (Schema_init default_id_type)
                   (numbered_calls 256 []))).
  vm_compute. eexists. repeat split.
Qed.

Lemma Schema_define_error (s : Schema) (key : string)
    (fields : list FieldSpec) (h : Heap) (e : exn) :
  snd (Schema_define s key fields h) = Err e ->
  snd (make_fields fields h) = Err e.
Proof.
  unfold Schema_define, bind.
  destruct (make_fields fields h) as [h1 [fs|e']]; [discriminate|].
  cbn. now intros [= <-].
Qed.

Lemma Schema_dumps_id_out_of_range (s : Schema) (key : string)
    (data : gmap string value) (d : Definition_) (i lo hi : Z) :
  definitions s !! key = Some d ->
  documented_range (id_type s) = Some (lo, hi) ->
  def_id d = Some i ->
  i < lo \/ hi < i ->
  Schema_dumps s key data = Err StructError.
Proof.
  intros Hd Hr Hi Hout. unfold Schema_dumps. rewrite Hd.
  destruct (documented_range_codec _ _ _ Hr) as (f & -> & Hb).
  unfold id_value. rewrite Hi. cbn [codec_dumps]. unfold Codec_dumps.
  now rewrite (struct_pack1_out_of_range false f lo hi i Hb Hout).
Qed.

(** C8, amended. [Schema.define] never reports a capacity violation: it
    returns whenever its fields are accepted, whatever the counter, and
    registers the definition under the next id, which is not wrapped, and it
    raises only the error of a rejected field. The violation shows when
    [Schema.dumps] is called for a definition whose id is outside the range
    of the integer id type: the call raises [struct.error] and gives no
    bytes. *)
Theorem capacity_surfaces_in_dumps (s : Schema) (key : string) :
  (forall fields h h' fs,
      make_fields fields h = (h', Ok fs) ->
      exists d s', Schema_define s key fields h = (h', Ok (d, s'))
                   /\ def_id d = Some (next_definition_id s)
                   /\ definitions s' !! key = Some d
                   /\ definitions_by_id s' !! next_definition_id s = Some d
                   /\ next_definition_id s' = next_definition_id s + 1)
  /\ (forall fields h e,
        snd (Schema_define s key fields h) = Err e ->
        snd (make_fields fields h) = Err e)
  /\ (forall data d i lo hi,
        definitions s !! key = Some d ->
        documented_range (id_type s) = Some (lo, hi) ->
        def_id d = Some i ->
        i < lo \/ hi < i ->
        Schema_dumps s key data = Err StructError).
Proof.
  split; [intros; eapply Schema_define_total; eauto|].
  split; [apply Schema_define_error|].
  intros. eapply Schema_dumps_id_out_of_range; eauto.
Qed.

(** ** Round trips of the scalar formats *)

Lemma pow256 (n : nat) : 256 ^ Z.of_nat n = 2 ^ (8 * Z.of_nat n).
Proof. change 256 with (2 ^ 8). rewrite <- Z.pow_mul_r by lia. reflexivity. Qed.

Lemma signed_mod (n : nat) (z : Z) :
  (0 < n)%nat ->
  - 2 ^ (8 * Z.of_nat n - 1) <= z < 2 ^ (8 * Z.of_nat n - 1) ->
  signed n (z mod 256 ^ Z.of_nat n) = z.
Proof.
  intros Hn Hz. rewrite pow256. unfold signed.
  set (m := 2 ^ (8 * Z.of_nat n - 1)) in *.
  assert (Hm : 2 ^ (8 * Z.of_nat n) = 2 * m).
  { unfold m. rewrite <- Z.pow_succ_r by lia. f_equal. lia. }
  rewrite Hm. destruct (Z.neg_nonneg_cases z) as [Hneg|Hpos].
  - assert (E : z mod (2 * m) = z + 2 * m).
    { symmetry. apply Z.mod_unique with (q := -1); lia. }
    rewrite E. destruct (Z.ltb_spec (z + 2 * m) m); lia.
  - rewrite Z.mod_small by lia. destruct (Z.ltb_spec z m); lia.
Qed.

Lemma int_roundtrip (le : bool) (f : format) (lo hi z : Z) :
  int_bounds f = Some (lo, hi) -> lo <= z <= hi ->
  struct_pack1 le f (VInt z) = Ok (uint_to_bytes le (calcsize f) z)
  /\ struct_unpack1 le f (uint_to_bytes le (calcsize f) z) = VInt z.
Proof.
  intros Hb Hz.
  assert (Hc : (lo <=? z) && (z <=? hi) = true).
  { apply andb_true_iff. split; lia. }
  split.
  - destruct f; simpl in Hb; try discriminate; injection Hb as <- <-;
      cbv beta iota delta [struct_pack1 as_index int_bounds]; now rewrite Hc.
  - unfold struct_unpack1. rewrite uint_of_to_bytes.
    destruct f; simpl in Hb; try discriminate; injection Hb as <- <-;
      f_equal;
      first [ apply signed_mod; [simpl; lia | simpl; lia]
            | apply Z.mod_small; simpl; lia ].
Qed.

Lemma is_inf_f32_to_f64 (y : Z) :
  is_inf_bits 23 8 y = true -> is_inf_bits 52 11 (f32_to_f64 y) = true.
Proof.
  unfold is_inf_bits. intros H. apply andb_true_iff in H as [He Hm].
  unfold f32_to_f64, sf_of_f32, sf_of_bits. rewrite He, Hm.
  now destruct (float_sign 23 8 y).
Qed.

Lemma scalar_roundtrip (le : bool) (f : format) (v : value) :
  scalar_ok f v = true ->
  exists b, struct_pack1 le f v = Ok b /\ length b = calcsize f
            /\ struct_unpack1 le f b = v.
Proof.
  intros Hok.
  assert (Hint : forall z lo hi, v = VInt z -> int_bounds f = Some (lo, hi) ->
            (lo <=? z) && (z <=? hi) = true ->
            exists b, struct_pack1 le f v = Ok b /\ length b = calcsize f
                      /\ struct_unpack1 le f b = v).
  { intros z lo hi -> Hb Hc. apply andb_true_iff in Hc as [H1 H2].
    destruct (int_roundtrip le f lo hi z Hb) as [Hp Hu]; [lia|].
    eexists. split; [exact Hp|]. split; [apply length_uint_to_bytes | exact Hu]. }
  destruct v as [|b|z|bits|s|bs|items|items];
    try (destruct f; discriminate Hok).
  - (* bool *)
    destruct f; try discriminate Hok.
    exists [if b then x01 else x00]. now destruct b, le.
  - (* int *)
    destruct (int_bounds f) as [[lo hi]|] eqn:Hb.
    + apply (Hint z lo hi eq_refl eq_refl).
      destruct f; simpl in Hb; try discriminate Hb; simpl in Hok;
        injection Hb as <- <-; exact Hok.
    + destruct f; simpl in Hb; try discriminate Hb; discriminate Hok.
  - (* float *)
    destruct f; try discriminate Hok; simpl in Hok.
    + (* 'f' *)
      unfold float32_exact in Hok.
      apply andb_true_iff in Hok as [Hok Heq].
      apply andb_true_iff in Hok as [Hok Hhi].
      apply andb_true_iff in Hok as [H64 Hlo].
      apply Z.eqb_eq in Heq. apply Z.leb_le in Hlo. apply Z.ltb_lt in Hhi.
      unfold float64_ok in H64.
      apply andb_true_iff in H64 as [H64 Hnan].
      set (y := f64_to_f32 bits) in *.
      assert (Hov : is_inf_bits 23 8 y && negb (is_inf_bits 52 11 bits) = false).
      { destruct (is_inf_bits 23 8 y) eqn:Ei; [|reflexivity].
        apply is_inf_f32_to_f64 in Ei. rewrite Heq in Ei. now rewrite Ei. }
      exists (uint_to_bytes le 4 y).
      split.
      { change (struct_pack1 le F_f (VFloat bits))
          with (if is_inf_bits 23 8 y && negb (is_inf_bits 52 11 bits)
                then @Err (list byte) OverflowError
                else Ok (uint_to_bytes le 4 y)).
        now rewrite Hov. }
      split; [apply length_uint_to_bytes|].
      unfold struct_unpack1. rewrite uint_of_to_bytes.
      rewrite Z.mod_small by (simpl; lia). now rewrite Heq.
    + (* 'd' *)
      unfold float64_ok in Hok.
      apply andb_true_iff in Hok as [Hok Hnan].
      apply andb_true_iff in Hok as [Hlo Hhi].
      apply Z.leb_le in Hlo. apply Z.ltb_lt in Hhi.
      exists (uint_to_bytes le 8 bits). split; [reflexivity|].
      split; [apply length_uint_to_bytes|].
      unfold struct_unpack1. rewrite uint_of_to_bytes.
      now rewrite Z.mod_small by (simpl; lia).
Qed.

(** ** UTF-8 round trip *)

Ltac zlia := Z.div_mod_to_equations; lia.

Ltac decide_test :=
  match goal with
  | |- context [Z.ltb ?a ?b] =>
      first [ rewrite (proj2 (Z.ltb_lt a b)) by zlia
            | rewrite (proj2 (Z.ltb_ge a b)) by zlia ]
  | |- context [Z.leb ?a ?b] =>
      first [ rewrite (proj2 (Z.leb_le a b)) by zlia
            | rewrite (proj2 (Z.leb_gt a b)) by zlia ]
  end.

Lemma Z_of_byte_small (z : Z) : 0 <= z < 256 -> Z_of_byte (byte_of_Z z) = z.
Proof. intros H. rewrite Z_of_byte_of_Z. now apply Z.mod_small. Qed.

Lemma utf8_decode_encode_cp (c : Z) (b rest : list byte) :
  utf8_encode_cp c = Some b ->
  utf8_decode (b ++ rest) = rbind (utf8_decode rest) (fun s => Ok (c :: s)).
Proof.
  unfold utf8_encode_cp.
  destruct (Z.ltb_spec c 0) as [|H0]; [discriminate|].
  destruct (Z.ltb_spec c 128) as [H1|H1].
  { intros [= <-]. cbn [app utf8_decode].
    rewrite Z_of_byte_small by lia. now decide_test. }
  destruct (Z.ltb_spec c 2048) as [H2|H2].
  { intros [= <-]. cbn [app utf8_decode]. unfold is_cont, cont, decoded.
    rewrite !Z_of_byte_small by zlia.
    replace ((192 + c / 64 - 192) * 64 + (128 + c mod 64 - 128)) with c by zlia.
    repeat (decide_test; cbn [andb negb orb]). reflexivity. }
  destruct (Z.ltb_spec c 65536) as [H3|H3].
  { destruct (Z.leb_spec 55296 c) as [H4|H4];
      [destruct (Z.leb_spec c 57343) as [H5|H5]; [discriminate|]|];
      cbn [andb]; intros [= <-]; cbn [app utf8_decode];
      unfold is_cont, cont, decoded;
      rewrite !Z_of_byte_small by zlia;
      replace ((224 + c / 4096 - 224) * 4096 + (128 + (c / 64) mod 64 - 128) * 64
               + (128 + c mod 64 - 128)) with c by zlia;
      repeat (decide_test; cbn [andb negb orb]); reflexivity. }
  destruct (Z.ltb_spec c 1114112) as [H4|H4]; [|discriminate].
  intros [= <-]. cbn [app utf8_decode]. unfold is_cont, cont, decoded.
  rewrite !Z_of_byte_small by zlia.
  replace ((240 + c / 262144 - 240) * 262144
           + (128 + (c / 4096) mod 64 - 128) * 4096
           + (128 + (c / 64) mod 64 - 128) * 64
           + (128 + c mod 64 - 128)) with c by zlia.
  repeat (decide_test; cbn [andb negb orb]). reflexivity.
Qed.

Lemma utf8_decode_encode (s : list Z) (encoded : list byte) :
  utf8_encode s = Ok encoded -> utf8_decode encoded = Ok s.
Proof.
  revert encoded. induction s as [|c s IH]; intros encoded.
  - intros [= <-]. reflexivity.
  - cbn [utf8_encode].
    destruct (utf8_encode_cp c) as [b|] eqn:Ec; [|discriminate].
    destruct (utf8_encode s) as [bs|e]; [|discriminate].
    cbn [rbind]. intros [= <-].
    rewrite (utf8_decode_encode_cp c b bs Ec), (IH bs eq_refl). reflexivity.
Qed.

Lemma utf8_encode_cp_nonempty (c : Z) (b : list byte) :
  utf8_encode_cp c = Some b -> b <> [].
Proof.
  unfold utf8_encode_cp.
  repeat match goal with
         | |- context [if ?t then _ else _] => destruct t
         end; intros [= <-]; discriminate.
Qed.

Lemma utf8_encode_nil (s : list Z) : utf8_encode s = Ok [] -> s = [].
Proof.
  destruct s as [|c s]; [reflexivity|]. cbn [utf8_encode].
  destruct (utf8_encode_cp c) as [b|] eqn:Ec; [|discriminate].
  destruct (utf8_encode s) as [bs|e]; [|discriminate].
  cbn [rbind]. intros [= H]. apply app_eq_nil in H as [Hb _].
  now apply utf8_encode_cp_nonempty in Ec.
Qed.

(** ** Round trips of the codecs *)

Lemma length_prefix_roundtrip (le : bool) (n : nat) :
  Z.of_nat n < 2 ^ 32 ->
  exists prefix,
    length_struct_pack le n = Ok prefix
    /\ length prefix = length_struct_size
    /\ Z.to_nat (uint_of_bytes le prefix) = n.
Proof.
  intros Hn. unfold length_struct_pack.
  destruct (int_roundtrip le F_I 0 4294967295 (Z.of_nat n) eq_refl) as [Hp Hu];
    [simpl in Hn; lia|].
  eexists. split; [exact Hp|]. split; [apply length_uint_to_bytes|].
  unfold struct_unpack1 in Hu. injection Hu as Hu.
  etransitivity; [exact (f_equal Z.to_nat Hu) | apply Nat2Z.id].
Qed.

Lemma Codec_loads_app (le : bool) (f : format) (pre b post : list byte) :
  length b = calcsize f ->
  Codec_loads f (pre ++ b ++ post) (length pre) le
  = Ok (struct_unpack1 le f b).
Proof.
  intros Hb. unfold Codec_loads, struct_unpack_from.
  replace (length pre + 1 * calcsize f <=? length (pre ++ b ++ post))%nat
    with true by (symmetry; apply Nat.leb_le; rewrite !length_app; lia).
  rewrite drop_app_length. cbn [chunks map]. rewrite <- Hb.
  now rewrite take_app_length.
Qed.

Lemma StringCodec_roundtrip (le : bool) (s : list Z) :
  text_ok s = true ->
  exists b,
    StringCodec_dumps (VText s) le = Ok b
    /\ forall pre post h,
         exists h',
           StringCodec_loads (pre ++ b ++ post) (length pre) le h
           = (h', Ok (VText s))
           /\ string_size h' = Some (length b).
Proof.
  unfold text_ok. intros Hok.
  destruct (utf8_encode s) as [enc|e] eqn:Eenc; [|discriminate].
  apply Z.ltb_lt in Hok.
  destruct (length_prefix_roundtrip le (length enc) Hok) as (prefix & Hp & Hl & Hn).
  exists (prefix ++ enc). split.
  { unfold StringCodec_dumps. rewrite Eenc. cbn [rbind]. rewrite Hp.
    cbn [rbind]. unfold struct_pack_s.
    rewrite firstn_all, Nat.sub_diag. cbn [repeat rbind]. now rewrite app_nil_r. }
  intros pre post h. unfold StringCodec_loads, bind, lift.
  rewrite <- (app_assoc prefix enc post).
  rewrite (length_struct_unpack_from_app le pre prefix (enc ++ post) Hl), Hn.
  destruct enc as [|b0 enc'].
  - cbn [length Nat.eqb negb set_string_size ret].
    rewrite (utf8_encode_nil s Eenc). eexists. split; [reflexivity|].
    cbn. rewrite app_nil_r, Hl. reflexivity.
  - set (enc := b0 :: enc') in *.
    cbn [length Nat.eqb negb set_string_size].
    unfold struct_unpack_from_s.
    rewrite <- Hl, <- length_app, (app_assoc pre prefix (enc ++ post)).
    replace (length (pre ++ prefix) + length enc
             <=? length ((pre ++ prefix) ++ enc ++ post))%nat
      with true by (symmetry; apply Nat.leb_le; rewrite !length_app; lia).
    rewrite slice_app, (utf8_decode_encode s enc Eenc). unfold ret.
    eexists. split; [reflexivity|].
    cbn [string_size]. rewrite length_app. f_equal. lia.
Qed.

Lemma struct_pack_roundtrip (le : bool) (f : format) (items : list value) :
  forallb (scalar_ok f) items = true ->
  exists packed,
    struct_pack le f items = Ok packed
    /\ length packed = (length items * calcsize f)%nat
    /\ forall post,
         map (struct_unpack1 le f)
           (chunks (calcsize f) (length items) (packed ++ post)) = items.
Proof.
  induction items as [|v items IH]; intros Hall.
  - exists []. repeat split.
  - cbn [forallb] in Hall. apply andb_true_iff in Hall as [Hv Hall].
    destruct (scalar_roundtrip le f v Hv) as (b & Hp & Hl & Hu).
    destruct (IH Hall) as (packed & Hps & Hlen & Hch).
    exists (b ++ packed). split.
    { cbn [struct_pack]. rewrite Hp. cbn [rbind]. rewrite Hps. reflexivity. }
    split.
    { rewrite length_app, Hl, Hlen. cbn [length]. lia. }
    intros post. cbn [length chunks map]. rewrite <- app_assoc, <- Hl.
    rewrite take_app_length, drop_app_length, Hu, Hl. f_equal. apply Hch.
Qed.

Lemma ArrayCodec_roundtrip (le : bool) (l : nat) (f : format)
    (items : list value) :
  Z.of_nat (length items) < 2 ^ 32 ->
  forallb (scalar_ok f) items = true ->
  exists b,
    ArrayCodec_dumps f (VTuple items) le = Ok b
    /\ forall pre post h,
         exists h',
           ArrayCodec_loads l f (pre ++ b ++ post) (length pre) le h
           = (h', Ok (VTuple items))
           /\ array_size h' !! l = Some (length b).
Proof.
  intros Hn Hall.
  destruct (length_prefix_roundtrip le (length items) Hn) as (prefix & Hp & Hl & Hu).
  destruct (struct_pack_roundtrip le f items Hall) as (packed & Hps & Hlen & Hch).
  exists (prefix ++ packed). split.
  { unfold ArrayCodec_dumps. cbn [items_of rbind]. rewrite Hp. cbn [rbind].
    rewrite Hps. reflexivity. }
  intros pre post h. unfold ArrayCodec_loads, bind, lift.
  rewrite <- (app_assoc prefix packed post).
  rewrite (length_struct_unpack_from_app le pre prefix (packed ++ post) Hl), Hu.
  destruct (Nat.eqb (length items) 0) eqn:E0.
  - apply Nat.eqb_eq, length_zero_iff_nil in E0. subst items.
    cbn [negb set_array_size ret].
    eexists. split; [reflexivity|].
    cbn [array_size]. rewrite lookup_insert_eq. f_equal.
    assert (packed = []) as -> by (apply length_zero_iff_nil; rewrite Hlen; reflexivity).
    rewrite app_nil_r. now rewrite Hl.
  - cbn [negb set_array_size].
    unfold struct_unpack_from.
    rewrite <- Hl, <- length_app, (app_assoc pre prefix (packed ++ post)).
    replace (length (pre ++ prefix) + length items * calcsize f
             <=? length ((pre ++ prefix) ++ packed ++ post))%nat
      with true.
    2:{ symmetry. apply Nat.leb_le. rewrite !length_app, Hlen. lia. }
    rewrite drop_app_length, Hch. unfold ret.
    eexists. split; [reflexivity|].
    cbn [array_size]. rewrite lookup_insert_eq. f_equal.
    rewrite length_app, Hlen. lia.
Qed.

Lemma codec_roundtrip (le : bool) (c : codec) (v : value) :
  codec_ok c v = true ->
  exists b,
    codec_dumps c v le = Ok b
    /\ forall pre post h,
         exists h',
           codec_loads c (pre ++ b ++ post) (length pre) le h = (h', Ok v)
           /\ codec_size c h' = (h', Ok (length b)).
Proof.
  destruct c as [f| |l f]; cbn [codec_ok].
  - intros Hok. destruct (scalar_roundtrip le f v Hok) as (b & Hp & Hl & Hu).
    exists b. split; [exact Hp|]. intros pre post h. exists h.
    cbn [codec_loads codec_size]. unfold lift.
    rewrite (Codec_loads_app le f pre b post Hl), Hu, Hl. split; reflexivity.
  - destruct v; try discriminate. intros Hok.
    destruct (StringCodec_roundtrip le s Hok) as (b & Hd & Hload).
    exists b. split; [exact Hd|]. intros pre post h.
    destruct (Hload pre post h) as (h' & Hl & Hs). exists h'.
    split; [exact Hl|]. cbn [codec_size]. now rewrite Hs.
  - destruct v; try discriminate. intros Hok.
    apply andb_true_iff in Hok as [Hn Hall]. apply Z.ltb_lt in Hn.
    destruct (ArrayCodec_roundtrip le l f items Hn Hall) as (b & Hd & Hload).
    exists b. split; [exact Hd|]. intros pre post h.
    destruct (Hload pre post h) as (h' & Hl & Hs). exists h'.
    split; [exact Hl|]. cbn [codec_size]. now rewrite Hs.
Qed.

(** ** In-range values and the codec of a field *)

Lemma tag_scalar (tag : string) (f : format) (v : value) :
  _codecs tag = Some (PrimCodec f) ->
  tag_in_range tag v = true ->
  scalar_ok f v = true.
Proof.
  unfold _codecs. intros H.
  repeat match type of H with
         | (if String.eqb ?t ?k then _ else _) = _ =>
             destruct (String.eqb_spec t k) as [->|];
             [first [ discriminate H
                    | injection H as <-; intros Hr;
                      destruct v; first [exact Hr | discriminate Hr] ]|]
         end.
  discriminate.
Qed.

Lemma field_value_ok (f : Field) (v : value) :
  field_ok f ->
  value_in_range (field_type f) (field_value_type f) v = true ->
  codec_ok (field_codec f) v = true.
Proof.
  unfold field_ok, value_in_range.
  destruct (String.eqb (field_type f) "array").
  - intros (t & fmt & l & Hvt & Hns & Hc & Hcodec). rewrite Hvt, Hcodec.
    destruct v; try discriminate. intros H.
    apply andb_true_iff in H as [H Hall].
    apply andb_true_iff in H as [_ Hlen].
    cbn [codec_ok]. rewrite Hlen. cbn [andb].
    apply forallb_forall. intros x Hx.
    apply (tag_scalar t fmt x Hc).
    exact (proj1 (forallb_forall _ _) Hall x Hx).
  - intros Hc Hr. destruct (_codecs_cases _ _ Hc) as [[fmt E]|[E Ht]];
      rewrite E in *.
    + cbn [codec_ok]. now apply (tag_scalar (field_type f)).
    + rewrite Ht in Hr. destruct v; first [exact Hr | discriminate Hr].
Qed.

(** ** Round trip of a definition *)

Lemma loaded_cons (f : Field) (fs : list Field)
    (data values : gmap string value) :
  loaded (f :: fs) data values
  = loaded fs data (match data !! field_key f with
                    | Some v => <[field_key f := v]> values
                    | None => values
                    end).
Proof. reflexivity. Qed.

Lemma loaded_other (fs : list Field) (data values : gmap string value)
    (k : string) :
  ~ In k (map field_key fs) -> loaded fs data values !! k = values !! k.
Proof.
  revert values. induction fs as [|f fs IH]; intros values Hk; [reflexivity|].
  cbn [map In] in Hk. rewrite loaded_cons, IH by tauto.
  destruct (data !! field_key f); [|reflexivity].
  apply lookup_insert_ne. tauto.
Qed.

Lemma loaded_field (fs : list Field) (data values : gmap string value)
    (k : string) :
  (forall f, In f fs -> is_Some (data !! field_key f)) ->
  In k (map field_key fs) -> loaded fs data values !! k = data !! k.
Proof.
  revert values. induction fs as [|f fs IH]; intros values Hall Hk;
    [destruct Hk|].
  rewrite loaded_cons.
  destruct (in_dec String.string_dec k (map field_key fs)) as [Hin|Hout].
  - apply IH; [intros f' Hf'; apply Hall; now right | exact Hin].
  - destruct Hk as [<-|Hk]; [|contradiction].
    rewrite loaded_other by exact Hout.
    destruct (Hall f (or_introl eq_refl)) as [v Hv]. rewrite Hv.
    apply lookup_insert_eq.
Qed.

Lemma loaded_record (d : Definition_) (data : gmap string value) :
  record_fits d data -> loaded (def_fields d) data ∅ = data.
Proof.
  intros [Hdom Hval]. apply map_eq. intros k.
  destruct (in_dec String.string_dec k (map field_key (def_fields d)))
    as [Hin|Hout].
  - apply loaded_field; [|exact Hin].
    intros f Hf. destruct (Hval f Hf) as (v & Hv & _). eauto.
  - rewrite loaded_other by exact Hout. rewrite lookup_empty.
    destruct (data !! k) as [v|] eqn:E; [|reflexivity].
    exfalso. apply Hout, Hdom. eauto.
Qed.

Lemma fields_roundtrip (fs : list Field) (le : bool)
    (data : gmap string value) :
  (forall f, In f fs ->
     exists v, data !! field_key f = Some v
               /\ codec_ok (field_codec f) v = true) ->
  forall acc,
  exists body,
    dumps_fields fs le data acc = Ok (acc ++ body)
    /\ forall pre post values h,
         exists h',
           loads_fields fs le (pre ++ body ++ post) (length pre) values h
           = (h', Ok (loaded fs data values)).
Proof.
  induction fs as [|f fs IH]; intros Hall acc.
  - exists []. split; [cbn; now rewrite app_nil_r|].
    intros pre post values h. now exists h.
  - destruct (Hall f (or_introl eq_refl)) as (v & Hv & Hok).
    destruct (codec_roundtrip le (field_codec f) v Hok) as (b & Hd & Hload).
    destruct (IH (fun f' Hf' => Hall f' (or_intror Hf')) (acc ++ b))
      as (body & Hdumps & Hloads).
    exists (b ++ body). split.
    { cbn [dumps_fields]. rewrite Hv, Hd. cbn [rbind].
      now rewrite Hdumps, app_assoc. }
    intros pre post values h. cbn [loads_fields]. unfold bind.
    rewrite <- (app_assoc b body post).
    destruct (Hload pre (body ++ post) h) as (h1 & Hl & Hs).
    rewrite Hl, Hs.
    rewrite <- length_app, (app_assoc pre b (body ++ post)).
    destruct (Hloads (pre ++ b) post (<[field_key f := v]> values) h1)
      as (h2 & Hl2).
    exists h2. rewrite Hl2, loaded_cons. now rewrite Hv.
Qed.

(** ** Round trip through a schema *)

(** The claim of C1 fails for the 256th definition of a schema with the
    default id type: its id does not fit the one-byte prefix, so
    [Schema.dumps] raises and there is nothing to load. *)
Lemma round_trip_fails_beyond_capacity :
  exists h s,
    define_all (Schema_init default_id_type)
      (numbered_calls 256
         [ {| spec_key := "x"; spec_type := "uint8"; spec_value_type := None |} ])
      empty_heap = (h, Ok s)
    /\ exists d data,
         definitions s !! "k256" = Some d
         /\ record_fits d data
         /\ Schema_dumps s "k256" data = Err StructError.
Proof.
  pose (fx := {| field_key := "x"; field_type := "uint8";
                 field_value_type := None; field_codec := PrimCodec F_B |}).
  destruct (run_ok
              (define_all (Schema_init default_id_type)
                 (numbered_calls 256
                    [ {| spec_key := "x"; spec_type := "uint8";
                         spec_value_type := None |} ]))
              (fun _ s => exists d,
                   definitions s !! "k256" = Some d
                   /\ def_fields d = [fx]
                   /\ Schema_dumps s "k256" {[ "x" := VInt 7 ]}
                      = Err StructError))
    as (h & s & E & d & Hd & Hf & Hdumps).
  { vm_compute. eexists. repeat split. }
  exists h, s. split; [exact E|].
  exists d, {[ "x" := VInt 7 ]}. split; [exact Hd|]. split; [|exact Hdumps].
  unfold record_fits. rewrite Hf. split.
  - intros k. cbn [map In fx field_key].
    rewrite lookup_singleton_is_Some. tauto.
  - intros f [<-|[]]. exists (VInt 7). split; reflexivity.
Qed.

(** C1, amended. For a schema built by [define] calls, a key defined in
    it whose definition has an id in the range of the schema's integer id
    type, and a record that has exactly the field keys of the definition,
    each with an in-range value of the declared type (an integer in the
    documented range, a bool, a float that is not a NaN and, for [float32],
    is exactly representable in binary32, a text that UTF-8 encodes in fewer
    than 2^32 bytes, a tuple of fewer than 2^32 in-range items):
    [Schema.dumps] returns bytes and [Schema.loads] of those bytes returns
    the record. *)
Theorem schema_round_trip (s : Schema) (key : string) (d : Definition_)
    (data : gmap string value) :
  reachable s ->
  definitions s !! key = Some d ->
  id_fits s d = true ->
  record_fits d data ->
  exists bs,
    Schema_dumps s key data = Ok bs
    /\ forall h, exists h', Schema_loads s (PyBytes bs) h = (h', Ok data).
Proof.
  intros Hs Hd Hid Hfit. pose proof (reachable_inv _ Hs) as I.
  unfold id_fits in Hid.
  destruct (documented_range (id_type s)) as [[lo hi]|] eqn:Hr; [|discriminate].
  destruct (def_id d) as [i|] eqn:Hi; [|discriminate].
  apply andb_true_iff in Hid as [Hlo Hhi].
  apply Z.leb_le in Hlo. apply Z.leb_le in Hhi.
  destruct (documented_range_codec _ _ _ Hr) as (f & Hc & Hb).
  destruct (int_roundtrip false f lo hi i Hb (conj Hlo Hhi)) as [Hp Hu].
  set (ib := uint_to_bytes false (calcsize f) i) in *.
  assert (Hib : length ib = calcsize f) by apply length_uint_to_bytes.
  assert (Hreg : registered s d) by (left; eauto).
  pose proof (inv_big_endian _ I d Hreg) as Hle.
  pose proof (inv_fields _ I d Hreg) as Hfields.
  destruct (inv_by_key _ I _ _ Hd) as (_ & i' & Hi' & Hbyid).
  rewrite Hi in Hi'. injection Hi' as <-.
  destruct (fields_roundtrip (def_fields d) false data) with (acc := @nil byte)
    as (body & Hdumps & Hloads).
  { intros fld Hin. destruct (proj2 Hfit fld Hin) as (v & Hv & Hrange).
    exists v. split; [exact Hv|]. apply field_value_ok; [|exact Hrange].
    apply (proj1 (Forall_forall _ _) Hfields fld).
    now apply list_elem_of_In. }
  exists (ib ++ body). split.
  { unfold Schema_dumps. rewrite Hd, Hc. unfold id_value. rewrite Hi.
    cbn [codec_dumps]. unfold Codec_dumps. rewrite Hp. cbn [rbind].
    unfold Definition_dumps. rewrite Hle, Hdumps. reflexivity. }
  intros h. unfold Schema_loads. rewrite Hc. unfold bind at 1.
  cbn [codec_loads]. unfold lift.
  pose proof (Codec_loads_app false f [] ib body Hib) as Hload.
  cbn [app length] in Hload. rewrite Hload, Hu.
  cbn [get_by_id]. rewrite Hbyid. unfold bind. cbn [codec_size].
  unfold Definition_loads, bind, lift. rewrite Hle.
  destruct (Hloads ib [] ∅ h) as (h' & Hl). rewrite app_nil_r in Hl.
  exists h'. fold (Codec_size f). unfold Codec_size. rewrite <- Hib, Hl.
  now rewrite (loaded_record d data Hfit).
Qed.

Lemma schema_round_trip_witness :
  exists h s,
    define_all (Schema_init default_id_type) test_calls empty_heap = (h, Ok s)
    /\ exists bs,
         Schema_dumps s "spawn" spawn_value = Ok bs
         /\ forall h0, exists h', Schema_loads s (PyBytes bs) h0
                                  = (h', Ok spawn_value).
Proof.
  pose (mk := fun k t vt c => {| field_key := k; field_type := t;
                                 field_value_type := vt; field_codec := c |}).
  pose (fs := [ mk "entity_id" "int32" None (PrimCodec F_i);
                mk "x" "float64" None (PrimCodec F_d);
                mk "y" "float64" None (PrimCodec F_d);
                mk "points" "array" (Some "float64") (ArrCodec 0 F_d);
                mk "health" "int16" None (PrimCodec F_h) ]).
  destruct (run_ok (define_all (Schema_init default_id_type) test_calls)
              (fun _ s => exists d, definitions s !! "spawn" = Some d
                                    /\ def_fields d = fs
                                    /\ id_fits s d = true))
    as (h & s & E & d & Hd & Hf & Hid).
  { vm_compute. eexists. repeat split. }
  exists h, s. split; [exact E|].
  apply (schema_round_trip s "spawn" d spawn_value).
  - eapply reachable_define_all; [apply reachable_init | exact E].
  - exact Hd.
  - exact Hid.
  - unfold record_fits. rewrite Hf. split.
    + intros k. unfold spawn_value. cbn [map In fs mk field_key].
      rewrite !lookup_insert_is_Some, lookup_empty.
      split; [|intros [<-|[<-|[<-|[<-|[<-|[]]]]]]; eauto 12].
      intros [?|[_ [?|[_ [?|[_ [?|[_ [?|[_ [? ?]]]]]]]]]]]; auto 7.
      discriminate.
    + intros f [<-|[<-|[<-|[<-|[<-|[]]]]]]; eexists; split; reflexivity.
Defined.

(** ** Why the round trip needs its hypotheses *)

(** A [float32] field rounds: 0.1 comes back as the nearest binary32
    number, as the module docstring says. *)
Example float32_round_trip_is_lossy :
  let data : gmap string value := {[ "x" := VFloat 0x3FB999999999999A ]} in
  let bs := [x3d; xcc; xcc; xcd] in
  match define [field_spec "x" "float32" None] empty_heap with
  | (h, Ok d) =>
      Definition_dumps d data = Ok bs
      /\ snd (Definition_loads d (PyBytes bs) 0 h)
         = Ok {[ "x" := VFloat 0x3FB99999A0000000 ]}
  | _ => False
  end.
Proof. vm_compute. split; reflexivity. Qed.

(** A key of the record that is not a field is not encoded, so the loaded
    record does not have it. *)
Example extra_key_is_dropped :
  let data : gmap string value := <["x" := VInt 7]> {[ "other" := VInt 8 ]} in
  match define [field_spec "x" "uint8" None] empty_heap with
  | (h, Ok d) =>
      Definition_dumps d data = Ok [x07]
      /\ snd (Definition_loads d (PyBytes [x07]) 0 h) = Ok {[ "x" := VInt 7 ]}
  | _ => False
  end.
Proof. vm_compute. split; reflexivity. Qed.

(** ** The tests of the repository, on the model *)

Example test_codecs :
  Codec_dumps F_bool (VBool true) false = Ok [x01]
  /\ Codec_dumps F_b (VInt (-128)) false = Ok [x80]
  /\ Codec_dumps F_h (VInt (-32768)) false = Ok [x80; x00]
  /\ Codec_dumps F_i (VInt 2147483647) false = Ok [x7f; xff; xff; xff]
  /\ Codec_dumps F_I (VInt 4294967295) false = Ok [xff; xff; xff; xff]
  /\ Codec_loads F_h [x80; x00] 0 false = Ok (VInt (-32768))
  /\ Codec_dumps F_f (VFloat 0x3FF0000000000000) false = Ok [x3f; x80; x00; x00]
  /\ Codec_dumps F_f (VFloat 0xBFE0000000000000) false = Ok [xbf; x00; x00; x00]
  /\ Codec_dumps F_f (VFloat 0xFFF0000000000000) false = Ok [xff; x80; x00; x00]
  /\ Codec_dumps F_f (VFloat 0x7FF8000000000000) false = Ok [x7f; xc0; x00; x00]
  /\ Codec_loads F_f [xbf; x00; x00; x00] 0 false = Ok (VFloat 0xBFE0000000000000)
  /\ Codec_dumps F_d (VFloat 0x3FB999999999999A) false
     = Ok [x3f; xb9; x99; x99; x99; x99; x99; x9a]
  /\ Codec_loads F_d [x3f; xb9; x99; x99; x99; x99; x99; x9a] 0 false
     = Ok (VFloat 0x3FB999999999999A).
Proof. repeat split. Qed.

Example test_float_codec_javascript_nan :
  (exists bits, Codec_loads F_f [x7f; x80; x00; x01] 0 false = Ok (VFloat bits)
                /\ is_nan_bits 52 11 bits = true)
  /\ (exists bits,
        Codec_loads F_d [x7f; xf0; x00; x00; x00; x00; x00; x01] 0 false
        = Ok (VFloat bits)
        /\ is_nan_bits 52 11 bits = true).
Proof. split; eexists; split; reflexivity. Qed.

Example test_array_codec :
  let values := VTuple [VFloat 0x3FB999999999999A; VFloat 0x3FC999999999999A] in
  let dumped := [x00; x00; x00; x02;
                 x3f; xb9; x99; x99; x99; x99; x99; x9a;
                 x3f; xc9; x99; x99; x99; x99; x99; x9a] in
  codec_size (ArrCodec 0 F_d) empty_heap = (empty_heap, Err AttributeError)
  /\ ArrayCodec_dumps F_d values false = Ok dumped
  /\ (let r := ArrayCodec_loads 0 F_d dumped 0 false empty_heap in
      snd r = Ok values
      /\ snd (codec_size (ArrCodec 0 F_d) (fst r)) = Ok (length dumped)).
Proof. vm_compute. repeat split. Qed.

Example test_string_codec :
  let value := VText [104; 111; 100; 248; 114] in
  let dumped := [x00; x00; x00; x06; x68; x6f; x64; xc3; xb8; x72] in
  codec_size StrCodec empty_heap = (empty_heap, Err AttributeError)
  /\ StringCodec_dumps value false = Ok dumped
  /\ (let r := StringCodec_loads dumped 0 false empty_heap in
      snd r = Ok value /\ string_size (fst r) = Some (length dumped))
  /\ StringCodec_dumps (VText []) false = Ok [x00; x00; x00; x00]
  /\ (let r := StringCodec_loads [x00; x00; x00; x00] 0 false empty_heap in
      snd r = Ok (VText []) /\ string_size (fst r) = Some 4%nat).
Proof. vm_compute. repeat split. Qed.

Example test_schema :
  match define_all (Schema_init default_id_type) test_calls empty_heap with
  | (h, Ok s) =>
      Schema_dumps s "spawn" spawn_value = Ok spawn_bytes
      /\ snd (Schema_loads s (PyBytes spawn_bytes) h) = Ok spawn_value
  | _ => False
  end.
Proof. vm_compute. split; reflexivity. Qed.

(** * Further properties of the module *)

(** ** class Codec *)

Ltac compute_consts :=
  repeat match goal with
         | H : context [?b ^ ?e] |- _ =>
             let c := eval vm_compute in (b ^ e) in
             progress change (b ^ e) with c in H
         | |- context [?b ^ ?e] =>
             let c := eval vm_compute in (b ^ e) in
             progress change (b ^ e) with c
         end.

Lemma struct_pack1_length (le : bool) (f : format) (v : value) (b : list byte) :
  struct_pack1 le f v = Ok b -> length b = calcsize f.
Proof.
  unfold struct_pack1. destruct f;
    repeat match goal with
           | |- context [match ?x with _ => _ end] => destruct x
           end;
    intros [= <-]; try reflexivity; apply length_uint_to_bytes.
Qed.

Lemma length_slice (buf : list byte) (offset n : nat) :
  (offset + n <= length buf)%nat -> length (slice buf offset n) = n.
Proof.
  intros H. unfold slice. rewrite length_take, length_drop. lia.
Qed.

Lemma Codec_loads_enough (f : format) (buf : list byte) (offset : nat)
    (le : bool) :
  (offset + calcsize f <= length buf)%nat ->
  Codec_loads f buf offset le
  = Ok (struct_unpack1 le f (slice buf offset (calcsize f))).
Proof.
  intros H. unfold Codec_loads, struct_unpack_from.
  replace (offset + 1 * calcsize f <=? length buf)%nat with true
    by (symmetry; apply Nat.leb_le; lia).
  reflexivity.
Qed.

Lemma Codec_loads_short (f : format) (buf : list byte) (offset : nat)
    (le : bool) :
  (length buf < offset + calcsize f)%nat ->
  Codec_loads f buf offset le = Err StructError.
Proof.
  intros H. unfold Codec_loads, struct_unpack_from.
  replace (offset + 1 * calcsize f <=? length buf)%nat with false
    by (symmetry; apply Nat.leb_gt; lia).
  reflexivity.
Qed.

Lemma int_decode_range (le : bool) (f : format) (lo hi : Z) (bs : list byte) :
  int_bounds f = Some (lo, hi) -> length bs = calcsize f ->
  exists z, struct_unpack1 le f bs = VInt z /\ lo <= z <= hi.
Proof.
  intros Hb Hl. pose proof (uint_of_bytes_range le bs) as Hr. rewrite Hl in Hr.
  destruct f; simpl in Hb; try discriminate; injection Hb as <- <-;
    unfold struct_unpack1, signed; cbn [calcsize] in *; compute_consts;
    eexists; (split; [reflexivity|]);
    try (destruct (Z.ltb_spec (uint_of_bytes le bs) 128));
    try (destruct (Z.ltb_spec (uint_of_bytes le bs) 32768));
    try (destruct (Z.ltb_spec (uint_of_bytes le bs) 2147483648)); lia.
Qed.

(** X1. A scalar codec round-trips every value it accepts as in range,
    in either byte order: [dumps] gives exactly [size] bytes, and [loads] at
    the offset of those bytes in any buffer gives the value back. *)
Theorem Codec_round_trip (f : format) (v : value) (le : bool)
    (pre post : list byte) :
  scalar_ok f v = true ->
  exists b,
    Codec_dumps f v le = Ok b
    /\ length b = Codec_size f
    /\ Codec_loads f (pre ++ b ++ post) (length pre) le = Ok v.
Proof.
  intros Hok. destruct (scalar_roundtrip le f v Hok) as (b & Hp & Hl & Hu).
  exists b. split; [exact Hp|]. split; [exact Hl|].
  now rewrite (Codec_loads_app le f pre b post Hl), Hu.
Qed.

Lemma Codec_round_trip_witness :
  exists b,
    Codec_dumps F_h (VInt (-2)) true = Ok b
    /\ length b = Codec_size F_h
    /\ Codec_loads F_h ([x00] ++ b ++ [xff]) (length [x00]) true
       = Ok (VInt (-2)).
Proof.
  apply (Codec_round_trip F_h (VInt (-2)) true [x00] [xff]). reflexivity.
Defined.

(** X2. The byte order flag only reverses the bytes of a scalar: what
    [dumps] gives little-endian is the reverse of what it gives big-endian,
    and it raises the same error in both orders. *)
Theorem Codec_dumps_byte_order (f : format) (v : value) :
  Codec_dumps f v true
  = rbind (Codec_dumps f v false) (fun b => Ok (rev b)).
Proof.
  unfold Codec_dumps, struct_pack1, uint_to_bytes, order_bytes.
  destruct f;
    repeat match goal with
           | |- context [match ?x with _ => _ end] => destruct x
           end;
    cbn [rbind]; try reflexivity; now rewrite rev_involutive.
Qed.

(** X3. [Codec.loads] returns exactly when the buffer holds [size] bytes
    from the offset on, and raises [struct.error] otherwise; what it returns
    is always a value of the type: an integer within the range of the integer
    format, a bool, or a float. *)
Theorem Codec_loads_total_and_bounded (f : format) (buf : list byte)
    (offset : nat) (le : bool) :
  ((offset + Codec_size f <= length buf)%nat ->
   exists v, Codec_loads f buf offset le = Ok v /\ decoded_ok f v = true)
  /\ ((length buf < offset + Codec_size f)%nat ->
      Codec_loads f buf offset le = Err StructError).
Proof.
  unfold Codec_size. split; [|apply Codec_loads_short].
  intros H. rewrite (Codec_loads_enough f buf offset le H).
  eexists. split; [reflexivity|].
  pose proof (length_slice buf offset (calcsize f) H) as Hl.
  destruct (int_bounds f) as [[lo hi]|] eqn:Hb.
  - destruct (int_decode_range le f lo hi _ Hb Hl) as (z & -> & Hz).
    unfold decoded_ok. rewrite Hb.
    replace ((lo <=? z) && (z <=? hi)) with true
      by (symmetry; apply andb_true_iff; split; lia).
    now destruct f.
  - destruct f; try discriminate Hb; reflexivity.
Qed.

Lemma le_bytes_mod (n : nat) (z : Z) :
  le_bytes n (z mod 256 ^ Z.of_nat n) = le_bytes n z.
Proof.
  revert z. induction n as [|n IH]; intros z; [reflexivity|].
  cbn [le_bytes]. rewrite Nat2Z.inj_succ, Z.pow_succ_r by lia.
  assert (Hp : 0 < 256 ^ Z.of_nat n) by (apply Z.pow_pos_nonneg; lia).
  rewrite Z.rem_mul_r by lia.
  pose proof (Z.mod_pos_bound z 256 ltac:(lia)) as Hm.
  set (q := (z / 256) mod 256 ^ Z.of_nat n).
  assert (Em : (z mod 256 + 256 * q) mod 256 = z mod 256).
  { symmetry. apply Z.mod_unique with (q := q); lia. }
  assert (Ed : (z mod 256 + 256 * q) / 256 = q).
  { symmetry. apply Z.div_unique with (r := z mod 256); lia. }
  unfold byte_of_Z at 1. rewrite Em, Ed. unfold q. rewrite IH. reflexivity.
Qed.

Lemma le_bytes_congr (n : nat) (a b : Z) :
  a mod 256 ^ Z.of_nat n = b mod 256 ^ Z.of_nat n ->
  le_bytes n a = le_bytes n b.
Proof. intros H. now rewrite <- (le_bytes_mod n a), H, le_bytes_mod. Qed.

Lemma signed_congr (n : nat) (u : Z) :
  signed n u mod 256 ^ Z.of_nat n = u mod 256 ^ Z.of_nat n.
Proof.
  unfold signed. destruct (u <? 2 ^ (8 * Z.of_nat n - 1)); [reflexivity|].
  rewrite pow256.
  replace (u - 2 ^ (8 * Z.of_nat n)) with (u + (-1) * 2 ^ (8 * Z.of_nat n))
    by lia.
  apply Z.mod_add. apply Z.pow_nonzero; lia.
Qed.

(** X4. For the integer formats and ['d'] the encoding is exact in the
    other direction too: whatever [loads] decodes from [size] bytes, [dumps]
    encodes to those same bytes, so these codecs are one-to-one between
    in-range values and byte strings of the codec's size. *)
Theorem Codec_dumps_loads (f : format) (bs : list byte) (le : bool) :
  exact_format f = true ->
  length bs = Codec_size f ->
  exists v, Codec_loads f bs 0 le = Ok v /\ Codec_dumps f v le = Ok bs.
Proof.
  unfold Codec_size. intros Hf Hl.
  rewrite (Codec_loads_enough f bs 0 le) by (rewrite Hl; lia).
  assert (Hs : slice bs 0 (calcsize f) = bs).
  { unfold slice. cbn [skipn]. rewrite <- Hl. apply firstn_all. }
  rewrite Hs.
  eexists. split; [reflexivity|]. unfold Codec_dumps.
  destruct (int_bounds f) as [[lo hi]|] eqn:Hb.
  - destruct (int_decode_range le f lo hi bs Hb Hl) as (z & Hz & Hr).
    rewrite Hz. rewrite (proj1 (int_roundtrip le f lo hi z Hb Hr)).
    f_equal.
    transitivity (uint_to_bytes le (length bs) (uint_of_bytes le bs));
      [|apply uint_to_of_bytes].
    rewrite Hl. unfold uint_to_bytes. f_equal. apply le_bytes_congr.
    assert (E : z mod 256 ^ Z.of_nat (calcsize f)
                = uint_of_bytes le bs mod 256 ^ Z.of_nat (calcsize f)).
    { destruct f; simpl in Hb; try discriminate Hb;
        unfold struct_unpack1 in Hz; injection Hz as <-;
        first [reflexivity | apply signed_congr]. }
    exact E.
  - destruct f; try discriminate Hb; try discriminate Hf.
    unfold struct_unpack1, struct_pack1, as_double. f_equal.
    change 8%nat with (calcsize F_d). rewrite <- Hl. apply uint_to_of_bytes.
Qed.

Lemma Codec_dumps_loads_witness :
  exists v, Codec_loads F_b [xff] 0 false = Ok v
            /\ Codec_dumps F_b v false = Ok [xff].
Proof.
  apply (Codec_dumps_loads F_b [xff] false); reflexivity.
Defined.

(** ** class ArrayCodec and class StringCodec *)

Lemma struct_pack_length (le : bool) (f : format) (items : list value)
    (packed : list byte) :
  struct_pack le f items = Ok packed ->
  length packed = (length items * calcsize f)%nat.
Proof.
  revert packed. induction items as [|v items IH]; intros packed.
  - intros [= <-]. reflexivity.
  - cbn [struct_pack].
    destruct (struct_pack1 le f v) as [b|e] eqn:Eb; [|discriminate].
    destruct (struct_pack le f items) as [bs|e]; [|discriminate].
    cbn [rbind]. intros [= <-].
    rewrite length_app, (struct_pack1_length _ _ _ _ Eb), (IH bs eq_refl).
    cbn [length]. lia.
Qed.

Lemma ArrayCodec_dumps_length (f : format) (values : value) (le : bool)
    (b : list byte) :
  ArrayCodec_dumps f values le = Ok b ->
  exists items, items_of values = Ok items
                /\ length b = (4 + length items * calcsize f)%nat.
Proof.
  unfold ArrayCodec_dumps.
  destruct (items_of values) as [items|e]; [|discriminate]. cbn [rbind].
  destruct (length_struct_pack le (length items)) as [prefix|e] eqn:Ep;
    [|discriminate].
  cbn [rbind].
  destruct (struct_pack le f items) as [packed|e] eqn:Es; [|discriminate].
  cbn [rbind]. intros [= <-]. exists items. split; [reflexivity|].
  rewrite length_app, (struct_pack_length _ _ _ _ Es).
  unfold length_struct_pack in Ep.
  now rewrite (struct_pack1_length _ _ _ _ Ep).
Qed.

(** X5. An array codec round-trips every tuple of fewer than 2^32 in-range
    items, in either byte order: [dumps] gives 4 + n * item-size bytes, the
    same for a list of those items, and [loads] at the offset of those bytes
    in any buffer gives the tuple back and sets [size] to their number. *)
Theorem ArrayCodec_round_trip (l : nat) (f : format) (items : list value)
    (le : bool) (pre post : list byte) (h : Heap) :
  Z.of_nat (length items) < 2 ^ 32 ->
  forallb (scalar_ok f) items = true ->
  exists b,
    ArrayCodec_dumps f (VTuple items) le = Ok b
    /\ ArrayCodec_dumps f (VList items) le = Ok b
    /\ length b = (4 + length items * calcsize f)%nat
    /\ exists h',
         ArrayCodec_loads l f (pre ++ b ++ post) (length pre) le h
         = (h', Ok (VTuple items))
         /\ codec_size (ArrCodec l f) h' = (h', Ok (length b)).
Proof.
  intros Hn Hall.
  destruct (ArrayCodec_roundtrip le l f items Hn Hall) as (b & Hd & Hload).
  exists b. split; [exact Hd|]. split; [exact Hd|]. split.
  - destruct (ArrayCodec_dumps_length _ _ _ _ Hd) as (items' & Hi & Hl).
    injection Hi as <-. exact Hl.
  - destruct (Hload pre post h) as (h' & Hl & Hs). exists h'.
    split; [exact Hl|]. cbn [codec_size]. now rewrite Hs.
Qed.

Lemma ArrayCodec_round_trip_witness :
  exists b,
    ArrayCodec_dumps F_h (VTuple [VInt 1; VInt (-1)]) true = Ok b
    /\ ArrayCodec_dumps F_h (VList [VInt 1; VInt (-1)]) true = Ok b
    /\ length b = 8%nat
    /\ exists h',
         ArrayCodec_loads 0 F_h ([xaa] ++ b ++ [xbb]) 1 true empty_heap
         = (h', Ok (VTuple [VInt 1; VInt (-1)]))
         /\ codec_size (ArrCodec 0 F_h) h' = (h', Ok (length b)).
Proof.
  apply (ArrayCodec_round_trip 0 F_h [VInt 1; VInt (-1)] true [xaa] [xbb]
           empty_heap); reflexivity.
Defined.

Lemma struct_pack1_int_error (le : bool) (f : format) (v : value) (e : exn) :
  int_bounds f <> None -> struct_pack1 le f v = Err e -> e = StructError.
Proof.
  unfold struct_pack1. intros Hb.
  destruct f; try (now destruct Hb);
    repeat match goal with
           | |- context [match ?x with _ => _ end] => destruct x
           end; now intros [= <-].
Qed.

Lemma struct_pack_int_error (le : bool) (f : format) (items : list value)
    (e : exn) :
  int_bounds f <> None -> struct_pack le f items = Err e -> e = StructError.
Proof.
  intros Hb. induction items as [|v items IH]; [discriminate|].
  cbn [struct_pack].
  destruct (struct_pack1 le f v) as [b|e1] eqn:E1.
  - cbn [rbind]. destruct (struct_pack le f items) as [bs|e2]; [discriminate|].
    cbn [rbind]. intros [= <-]. now apply IH.
  - cbn [rbind]. intros [= <-]. eapply struct_pack1_int_error; eauto.
Qed.

Lemma struct_pack_out_of_range (le : bool) (f : format) (lo hi z : Z)
    (items : list value) :
  int_bounds f = Some (lo, hi) -> In (VInt z) items -> z < lo \/ hi < z ->
  struct_pack le f items = Err StructError.
Proof.
  intros Hb Hin Hz.
  assert (Hne : int_bounds f <> None) by congruence.
  induction items as [|v items IH]; [destruct Hin|].
  cbn [struct_pack]. destruct Hin as [->|Hin].
  - now rewrite (struct_pack1_out_of_range le f lo hi z Hb Hz).
  - destruct (struct_pack1 le f v) as [b|e] eqn:E1; cbn [rbind].
    + now rewrite (IH Hin).
    + f_equal. eapply struct_pack1_int_error; eauto.
Qed.

(** X6. An array of an integer item type is encoded whole or not at all:
    one integer item outside the range of the item format makes [dumps] raise
    [struct.error], wherever the item stands in the sequence. *)
Theorem ArrayCodec_dumps_item_out_of_range (f : format) (lo hi z : Z)
    (items : list value) (le : bool) :
  int_bounds f = Some (lo, hi) ->
  In (VInt z) items ->
  z < lo \/ hi < z ->
  ArrayCodec_dumps f (VTuple items) le = Err StructError
  /\ ArrayCodec_dumps f (VList items) le = Err StructError.
Proof.
  intros Hb Hin Hz.
  assert (H : forall values, items_of values = Ok items ->
                ArrayCodec_dumps f values le = Err StructError).
  { intros values Hi. unfold ArrayCodec_dumps. rewrite Hi. cbn [rbind].
    destruct (length_struct_pack le (length items)) as [prefix|e] eqn:Ep.
    - cbn [rbind].
      now rewrite (struct_pack_out_of_range le f lo hi z items Hb Hin Hz).
    - cbn [rbind]. f_equal. unfold length_struct_pack in Ep.
      eapply (struct_pack1_int_error le F_I); [discriminate | exact Ep]. }
  split; apply H; reflexivity.
Qed.

Lemma ArrayCodec_dumps_item_out_of_range_witness :
  ArrayCodec_dumps F_B (VTuple [VInt 1; VInt 256; VInt 3]) false
  = Err StructError
  /\ ArrayCodec_dumps F_B (VList [VInt 1; VInt 256; VInt 3]) false
     = Err StructError.
Proof.
  apply (ArrayCodec_dumps_item_out_of_range F_B 0 255 256
           [VInt 1; VInt 256; VInt 3] false);
    [reflexivity | right; left; reflexivity | lia].
Defined.

(** X7. A length prefix that claims more than the buffer holds: [loads] of
    an array or a string codec raises [struct.error], and by then it has
    already stored the claimed size, 4 plus the claimed payload, in the
    [size] attribute of the codec. *)
Theorem loads_truncated_payload (buf : list byte) (offset n : nat)
    (le : bool) (h : Heap) :
  length_struct_unpack_from le buf offset = Ok n ->
  n <> O ->
  (forall l f,
      (length buf < offset + 4 + n * calcsize f)%nat ->
      snd (ArrayCodec_loads l f buf offset le h) = Err StructError
      /\ array_size (fst (ArrayCodec_loads l f buf offset le h)) !! l
         = Some (n * calcsize f + 4)%nat)
  /\ ((length buf < offset + 4 + n)%nat ->
      snd (StringCodec_loads buf offset le h) = Err StructError
      /\ string_size (fst (StringCodec_loads buf offset le h))
         = Some (n + 4)%nat).
Proof.
  intros Hn Hnz.
  assert (E0 : negb (Nat.eqb n 0) = true).
  { destruct n; [contradiction | reflexivity]. }
  split.
  - intros l f Hlen. unfold ArrayCodec_loads, bind, lift. rewrite Hn, E0.
    cbn [set_array_size]. unfold struct_unpack_from.
    replace (offset + length_struct_size + n * calcsize f <=? length buf)%nat
      with false
      by (symmetry; apply Nat.leb_gt; unfold length_struct_size; simpl; lia).
    cbn [fst snd array_size]. split; [reflexivity | apply lookup_insert_eq].
  - intros Hlen. unfold StringCodec_loads, bind, lift. rewrite Hn, E0.
    cbn [set_string_size]. unfold struct_unpack_from_s.
    replace (offset + length_struct_size + n <=? length buf)%nat with false
      by (symmetry; apply Nat.leb_gt; unfold length_struct_size; simpl; lia).
    cbn [fst snd string_size]. split; reflexivity.
Qed.

Lemma loads_truncated_payload_witness :
  (forall l f,
      (length [x00; x00; x00; x02; x01] < 0 + 4 + 2 * calcsize f)%nat ->
      snd (ArrayCodec_loads l f [x00; x00; x00; x02; x01] 0 false empty_heap)
      = Err StructError
      /\ array_size
           (fst (ArrayCodec_loads l f [x00; x00; x00; x02; x01] 0 false
                   empty_heap)) !! l
         = Some (2 * calcsize f + 4)%nat)
  /\ ((length [x00; x00; x00; x02; x01] < 0 + 4 + 2)%nat ->
      snd (StringCodec_loads [x00; x00; x00; x02; x01] 0 false empty_heap)
      = Err StructError
      /\ string_size
           (fst (StringCodec_loads [x00; x00; x00; x02; x01] 0 false
                   empty_heap))
         = Some (2 + 4)%nat).
Proof.
  apply (loads_truncated_payload [x00; x00; x00; x02; x01] 0 2 false
           empty_heap); [reflexivity | discriminate].
Defined.

Lemma StringCodec_dumps_length (s : list Z) (le : bool) (b : list byte) :
  StringCodec_dumps (VText s) le = Ok b ->
  exists encoded, utf8_encode s = Ok encoded
                  /\ length b = (4 + length encoded)%nat.
Proof.
  unfold StringCodec_dumps.
  destruct (utf8_encode s) as [enc|e]; [|discriminate]. cbn [rbind].
  destruct (length_struct_pack le (length enc)) as [prefix|e] eqn:Ep;
    [|discriminate].
  cbn [rbind]. unfold struct_pack_s.
  rewrite firstn_all, Nat.sub_diag. cbn [repeat rbind].
  intros [= <-]. exists enc. split; [reflexivity|].
  unfold length_struct_pack in Ep.
  rewrite !length_app, (struct_pack1_length _ _ _ _ Ep). cbn. lia.
Qed.

(** X8. The string codec round-trips every text without lone surrogates
    whose UTF-8 form is shorter than 2^32 bytes, in either byte order:
    [dumps] gives 4 bytes plus the UTF-8 bytes (the prefix counts bytes, not
    characters), and [loads] at the offset of those bytes in any buffer gives
    the text back and sets [size] to their number. *)
Theorem StringCodec_round_trip (s : list Z) (le : bool)
    (pre post : list byte) (h : Heap) :
  text_ok s = true ->
  exists encoded b,
    utf8_encode s = Ok encoded
    /\ StringCodec_dumps (VText s) le = Ok b
    /\ length b = (4 + length encoded)%nat
    /\ exists h',
         StringCodec_loads (pre ++ b ++ post) (length pre) le h
         = (h', Ok (VText s))
         /\ codec_size StrCodec h' = (h', Ok (length b)).
Proof.
  intros Hok.
  destruct (StringCodec_roundtrip le s Hok) as (b & Hd & Hload).
  destruct (StringCodec_dumps_length s le b Hd) as (enc & He & Hl).
  exists enc, b. split; [exact He|]. split; [exact Hd|]. split; [exact Hl|].
  destruct (Hload pre post h) as (h' & Hl' & Hs). exists h'.
  split; [exact Hl'|]. cbn [codec_size]. now rewrite Hs.
Qed.

Lemma StringCodec_round_trip_witness :
  exists encoded b,
    utf8_encode [104; 248; 8364] = Ok encoded
    /\ StringCodec_dumps (VText [104; 248; 8364]) false = Ok b
    /\ length b = (4 + length encoded)%nat
    /\ exists h',
         StringCodec_loads ([] ++ b ++ [x00]) 0 false empty_heap
         = (h', Ok (VText [104; 248; 8364]))
         /\ codec_size StrCodec h' = (h', Ok (length b)).
Proof.
  apply (StringCodec_round_trip [104; 248; 8364] false [] [x00] empty_heap).
  reflexivity.
Defined.

(** ** class Definition *)

Lemma utf8_decode_error_bounded (n : nat) :
  forall bs e, (length bs <= n)%nat ->
    utf8_decode bs = Err e -> e = UnicodeDecodeError.
Proof.
  induction n as [|n IH]; intros bs e Hlen;
    (destruct bs as [|b0 r0]; [discriminate|]);
    [cbn in Hlen; lia|].
  cbn [utf8_decode]. unfold decoded.
  repeat match goal with
         | |- context [if ?c then _ else _] => destruct c
         | |- context [match ?l with [] => _ | _ :: _ => _ end] =>
             is_var l; destruct l
         end;
    try (intros [= <-]; reflexivity);
    match goal with
    | |- rbind (utf8_decode ?r) _ = Err _ -> _ =>
        destruct (utf8_decode r) eqn:E;
        [discriminate
        | cbn [rbind]; intros [= <-]; apply (IH r); [cbn in Hlen; lia | exact E]]
    end.
Qed.

Lemma utf8_decode_error (bs : list byte) (e : exn) :
  utf8_decode bs = Err e -> e = UnicodeDecodeError.
Proof. apply (utf8_decode_error_bounded (length bs)). lia. Qed.

Lemma length_struct_unpack_from_error (le : bool) (buf : list byte)
    (offset : nat) (e : exn) :
  length_struct_unpack_from le buf offset = Err e -> e = StructError.
Proof.
  unfold length_struct_unpack_from.
  destruct (_ <=? _)%nat; [discriminate | now intros [= <-]].
Qed.

Lemma codec_loads_error (c : codec) (buf : list byte) (offset : nat)
    (le : bool) (h h' : Heap) (e : exn) :
  codec_loads c buf offset le h = (h', Err e) ->
  e = StructError \/ e = UnicodeDecodeError.
Proof.
  destruct c as [f| |l f]; cbn [codec_loads].
  - unfold lift, Codec_loads, struct_unpack_from.
    destruct (_ <=? _)%nat; cbn [chunks map]; intros [= _ <-]; now left.
  - unfold StringCodec_loads, bind, lift.
    destruct (length_struct_unpack_from le buf offset) as [n|e0] eqn:En.
    + destruct (negb (Nat.eqb n 0)); cbn [set_string_size]; [|discriminate].
      unfold struct_unpack_from_s.
      destruct (_ <=? _)%nat; [|intros [= _ <-]; now left].
      destruct (utf8_decode _) as [s|e1] eqn:Ed; [discriminate|].
      intros [= _ <-]. right. eapply utf8_decode_error; eauto.
    + intros [= _ <-]. left. eapply length_struct_unpack_from_error; eauto.
  - unfold ArrayCodec_loads, bind, lift.
    destruct (length_struct_unpack_from le buf offset) as [n|e0] eqn:En.
    + destruct (negb (Nat.eqb n 0)); cbn [set_array_size]; [|discriminate].
      unfold struct_unpack_from.
      destruct (_ <=? _)%nat; [discriminate | intros [= _ <-]; now left].
    + intros [= _ <-]. left. eapply length_struct_unpack_from_error; eauto.
Qed.

Lemma codec_loads_then_size (c : codec) (buf : list byte) (offset : nat)
    (le : bool) (h h' : Heap) (v : value) :
  codec_loads c buf offset le h = (h', Ok v) ->
  exists n, codec_size c h' = (h', Ok n).
Proof.
  destruct c as [f| |l f]; cbn [codec_loads codec_size].
  - eauto.
  - unfold StringCodec_loads, bind, lift.
    destruct (length_struct_unpack_from le buf offset) as [n|e0];
      [|discriminate].
    destruct (negb (Nat.eqb n 0)); cbn [set_string_size].
    + destruct (struct_unpack_from_s _ _ _) as [raw|e1]; [|discriminate].
      destruct (utf8_decode raw) as [s|e2]; [|discriminate].
      intros [= <- _]. cbn. eauto.
    + intros [= <- _]. cbn. eauto.
  - unfold ArrayCodec_loads, bind, lift.
    destruct (length_struct_unpack_from le buf offset) as [n|e0];
      [|discriminate].
    destruct (negb (Nat.eqb n 0)); cbn [set_array_size].
    + destruct (struct_unpack_from _ _ _ _ _) as [items|e1]; [|discriminate].
      intros [= <- _]. cbn. rewrite lookup_insert_eq. eauto.
    + intros [= <- _]. cbn. rewrite lookup_insert_eq. eauto.
Qed.

Lemma loads_fields_error (fs : list Field) (le : bool) (buf : list byte)
    (offset : nat) (values : gmap string value) (h h' : Heap) (e : exn) :
  loads_fields fs le buf offset values h = (h', Err e) ->
  e = StructError \/ e = UnicodeDecodeError.
Proof.
  revert offset values h. induction fs as [|f fs IH]; intros offset values h.
  - discriminate.
  - cbn [loads_fields]. unfold bind.
    destruct (codec_loads (field_codec f) buf offset le h) as [h1 [v|e1]] eqn:El.
    + destruct (codec_loads_then_size _ _ _ _ _ _ _ El) as [n Hn].
      rewrite Hn. apply IH.
    + intros [= _ <-]. eapply codec_loads_error; eauto.
Qed.

(** X9. Whatever the fields and the bytes, [Definition.loads] of a byte
    string either returns or raises [struct.error] (a buffer too short for
    a field or for a length prefix) or [UnicodeDecodeError] (a string payload
    that is not UTF-8). In particular reading [codec.size] after a field is
    decoded never fails: the [loads] that returned has set it. *)
Theorem Definition_loads_errors (d : Definition_) (bs : list byte)
    (offset : nat) (h h' : Heap) (e : exn) :
  Definition_loads d (PyBytes bs) offset h = (h', Err e) ->
  e = StructError \/ e = UnicodeDecodeError.
Proof.
  unfold Definition_loads, bind, lift. apply loads_fields_error.
Qed.

Lemma Definition_loads_errors_witness :
  exists e,
    snd (Definition_loads
           (Definition_init
              [ {| field_key := "name"; field_type := "string";
                   field_value_type := None; field_codec := StrCodec |} ]
              None None false)
           (PyBytes [x00; x00; x00; x01; xff]) 0 empty_heap) = Err e
    /\ (e = StructError \/ e = UnicodeDecodeError).
Proof.
  match goal with
  | |- exists e, snd ?c = Err e /\ _ => destruct c as [h' [r|e]] eqn:E
  end.
  - vm_compute in E. discriminate E.
  - exists e. split; [reflexivity|].
    exact (Definition_loads_errors _ _ 0 empty_heap h' e E).
Defined.

Lemma loads_fields_keys (fs : list Field) (le : bool) (buf : list byte)
    (offset : nat) (values r : gmap string value) (h h' : Heap) :
  loads_fields fs le buf offset values h = (h', Ok r) ->
  forall k, is_Some (r !! k)
            <-> is_Some (values !! k) \/ In k (map field_key fs).
Proof.
  revert offset values h. induction fs as [|f fs IH]; intros offset values h.
  - intros [= _ <-] k. cbn. tauto.
  - cbn [loads_fields]. unfold bind.
    destruct (codec_loads (field_codec f) buf offset le h) as [h1 [v|e1]];
      [|discriminate].
    destruct (codec_size (field_codec f) h1) as [h2 [n|e2]]; [|discriminate].
    intros Hl k. rewrite (IH _ _ _ Hl k), lookup_insert_is_Some. cbn [map In].
    destruct (decide (field_key f = k)); tauto.
Qed.

(** X10. The dictionary [Definition.loads] returns has exactly the keys
    of the fields of the definition, whatever the buffer held. *)
Theorem Definition_loads_keys (d : Definition_) (string : pystring)
    (offset : nat) (h h' : Heap) (r : gmap String.string value) :
  Definition_loads d string offset h = (h', Ok r) ->
  forall k, is_Some (r !! k) <-> In k (map field_key (def_fields d)).
Proof.
  unfold Definition_loads, bind, lift.
  destruct (match string with PyText s => utf8_encode s | PyBytes bs => Ok bs end)
    as [bs|e]; [|discriminate].
  intros Hl k. rewrite (loads_fields_keys _ _ _ _ _ _ _ _ Hl k), lookup_empty.
  split; [intros [[x Hx]|Hin]; [discriminate | exact Hin] | now right].
Qed.

Lemma Definition_loads_keys_witness :
  exists r,
    snd (Definition_loads
           (Definition_init
              [ {| field_key := "a"; field_type := "uint8";
                   field_value_type := None; field_codec := PrimCodec F_B |} ]
              None None false)
           (PyBytes [x05; x06]) 0 empty_heap) = Ok r
    /\ forall k, is_Some (r !! k) <-> In k ["a"].
Proof.
  match goal with
  | |- exists r, snd ?c = Ok r /\ _ => destruct c as [h' [r|e]] eqn:E
  end.
  - exists r. split; [reflexivity|].
    exact (Definition_loads_keys _ _ 0 empty_heap h' r E).
  - vm_compute in E. discriminate E.
Defined.

Lemma dumps_fields_layout (fs : list Field) (le : bool)
    (data : gmap string value) (acc bs : list byte) :
  dumps_fields fs le data acc = Ok bs
  <-> exists pieces, Forall2 (field_piece le data) fs pieces
                     /\ bs = acc ++ concat pieces.
Proof.
  revert acc. induction fs as [|f fs IH]; intros acc.
  - cbn [dumps_fields]. split.
    + intros [= <-]. exists []. split; [constructor | now rewrite app_nil_r].
    + intros (pieces & HF & ->). inversion HF. cbn. now rewrite app_nil_r.
  - cbn [dumps_fields]. split.
    + destruct (data !! field_key f) as [v|] eqn:Ev; [|discriminate].
      destruct (codec_dumps (field_codec f) v le) as [b|e] eqn:Eb;
        [|discriminate].
      cbn [rbind]. intros H. apply IH in H as (pieces & HF & ->).
      exists (b :: pieces). split.
      * constructor; [exists v; now split | exact HF].
      * cbn [concat]. now rewrite app_assoc.
    + intros (pieces & HF & ->). inversion HF as [|? b ? ps (v & Hv & Hb) HF']; subst.
      rewrite Hv, Hb. cbn [rbind]. apply IH. exists ps.
      split; [exact HF'|]. cbn [concat]. now rewrite app_assoc.
Qed.

(** X11. The output of [Definition.dumps] is the encodings of the fields,
    one after the other in the declared order, each made by the codec of the
    field from the value under the key of the field in the byte order of the
    definition, with nothing before, between or after them; and [dumps]
    returns exactly when every field has such an encoding. *)
Theorem Definition_dumps_layout (d : Definition_) (data : gmap string value)
    (bs : list byte) :
  Definition_dumps d data = Ok bs
  <-> exists pieces,
        Forall2 (field_piece (def_little_endian d) data) (def_fields d) pieces
        /\ bs = concat pieces.
Proof.
  unfold Definition_dumps. rewrite dumps_fields_layout. reflexivity.
Qed.

Lemma dumps_fields_cases (fs : list Field) (le : bool)
    (data : gmap string value) :
  (forall f v, In f fs -> data !! field_key f = Some v ->
               codec_ok (field_codec f) v = true) ->
  forall acc,
    (exists bs, dumps_fields fs le data acc = Ok bs
                /\ forall f, In f fs -> is_Some (data !! field_key f))
    \/ (dumps_fields fs le data acc = Err KeyError
        /\ exists f, In f fs /\ data !! field_key f = None).
Proof.
  induction fs as [|f fs IH]; intros Hok acc.
  - left. exists acc. split; [reflexivity | intros f []].
  - cbn [dumps_fields].
    destruct (data !! field_key f) as [v|] eqn:Ev.
    + destruct (codec_roundtrip le (field_codec f) v
                  (Hok f v (or_introl eq_refl) Ev)) as (b & Hb & _).
      rewrite Hb. cbn [rbind].
      destruct (IH (fun f' v' Hf' => Hok f' v' (or_intror Hf')) (acc ++ b))
        as [(bs & Hd & Hall)|(Hd & f' & Hin & Hn)].
      * left. exists bs. split; [exact Hd|].
        intros f' [<-|Hin]; [eauto | now apply Hall].
      * right. split; [exact Hd|]. exists f'. split; [now right | exact Hn].
    + right. split; [reflexivity|]. exists f. split; [now left | exact Ev].
Qed.

(** X12. When the values the record has for the fields are in range,
    [Definition.dumps] raises exactly when a field key is missing from the
    record, and then it raises [KeyError]; otherwise it returns. Keys of the
    record that are not fields play no part. *)
Theorem Definition_dumps_missing_key (d : Definition_)
    (data : gmap string value) :
  (forall f v, In f (def_fields d) -> data !! field_key f = Some v ->
               codec_ok (field_codec f) v = true) ->
  ((forall f, In f (def_fields d) -> is_Some (data !! field_key f))
   <-> exists bs, Definition_dumps d data = Ok bs)
  /\ ((exists f, In f (def_fields d) /\ data !! field_key f = None)
      <-> Definition_dumps d data = Err KeyError).
Proof.
  intros Hok. unfold Definition_dumps.
  destruct (dumps_fields_cases (def_fields d) (def_little_endian d) data Hok [])
    as [(bs & Hd & Hall)|(Hd & f & Hin & Hn)]; rewrite Hd.
  - split; split; eauto; try discriminate.
    intros (f & Hin & Hn). destruct (Hall f Hin) as [v Hv]. congruence.
  - split; split; eauto.
    + intros Hall. destruct (Hall f Hin) as [v Hv]. congruence.
    + intros [bs Hbs]. discriminate.
Qed.

Lemma Definition_dumps_missing_key_witness :
  let d := Definition_init
             [ {| field_key := "a"; field_type := "uint8";
                  field_value_type := None; field_codec := PrimCodec F_B |};
               {| field_key := "b"; field_type := "uint8";
                  field_value_type := None; field_codec := PrimCodec F_B |} ]
             None None false in
  let data : gmap string value := {[ "a" := VInt 1 ]} in
  ((forall f, In f (def_fields d) -> is_Some (data !! field_key f))
   <-> exists bs, Definition_dumps d data = Ok bs)
  /\ ((exists f, In f (def_fields d) /\ data !! field_key f = None)
      <-> Definition_dumps d data = Err KeyError).
Proof.
  intros d data. apply (Definition_dumps_missing_key d data).
  intros f v [<-|[<-|[]]] Hv; unfold data in Hv; cbn [field_key] in Hv.
  - rewrite lookup_singleton_eq in Hv. now injection Hv as <-.
  - rewrite lookup_singleton_ne in Hv by done. discriminate Hv.
Defined.

(** X13. A definition whose fields carry the codec of their type
    round-trips every record that fits it, in either byte order and wherever
    the encoding lies in the buffer: [loads] at the offset of the bytes that
    [dumps] gave returns the record, and the bytes after them are ignored. *)
Theorem Definition_round_trip (d : Definition_) (data : gmap string value)
    (pre post : list byte) (h : Heap) :
  Forall field_ok (def_fields d) ->
  record_fits d data ->
  exists bs,
    Definition_dumps d data = Ok bs
    /\ exists h',
         Definition_loads d (PyBytes (pre ++ bs ++ post)) (length pre) h
         = (h', Ok data).
Proof.
  intros Hfields Hfit.
  destruct (fields_roundtrip (def_fields d) (def_little_endian d) data)
    with (acc := @nil byte) as (body & Hdumps & Hloads).
  { intros fld Hin. destruct (proj2 Hfit fld Hin) as (v & Hv & Hrange).
    exists v. split; [exact Hv|]. apply field_value_ok; [|exact Hrange].
    apply (proj1 (Forall_forall _ _) Hfields fld). now apply list_elem_of_In. }
  exists body. split; [exact Hdumps|].
  destruct (Hloads pre post ∅ h) as (h' & Hl). exists h'.
  unfold Definition_loads, bind, lift. rewrite Hl.
  now rewrite (loaded_record d data Hfit).
Qed.

Lemma Definition_round_trip_witness :
  let d := Definition_init
             [ {| field_key := "name"; field_type := "string";
                  field_value_type := None; field_codec := StrCodec |};
               {| field_key := "hits"; field_type := "array";
                  field_value_type := Some "int16";
                  field_codec := ArrCodec 0 F_h |} ]
             None None true in
  let data : gmap string value :=
    <["name" := VText [104; 248]]> {[ "hits" := VTuple [VInt (-1); VInt 2] ]} in
  exists bs,
    Definition_dumps d data = Ok bs
    /\ exists h',
         Definition_loads d (PyBytes ([xee] ++ bs ++ [xff])) 1 empty_heap
         = (h', Ok data).
Proof.
  intros d data.
  apply (Definition_round_trip d data [xee] [xff] empty_heap).
  - repeat constructor. exists "int16", F_h, O. repeat split. discriminate.
  - split.
    + intros k. unfold data. cbn [map In d def_fields Definition_init field_key].
      rewrite lookup_insert_is_Some, lookup_singleton_is_Some.
      destruct (decide ("name" = k)); tauto.
    + intros f [<-|[<-|[]]]; eexists; split; reflexivity.
Defined.

(** ** Building fields *)

Lemma Field_init_heap (key type : string) (vt : option string) (h : Heap) :
  let h' := fst (Field_init key type vt h) in
  string_size h' = string_size h /\ array_size h' = array_size h
  /\ (next_loc h <= next_loc h')%nat.
Proof.
  unfold Field_init.
  repeat match goal with
         | |- context [if ?c then _ else _] => destruct c
         | |- context [match ?x with _ => _ end] => destruct x
         end; cbn; repeat split; lia.
Qed.

Lemma make_fields_fails_iff (fields : list FieldSpec) (h : Heap) :
  (exists e, snd (make_fields fields h) = Err e) <-> Exists invalid_spec fields.
Proof.
  revert h. induction fields as [|kw rest IH]; intros h.
  - cbn. split; [intros [e He]; discriminate | intros H; inversion H].
  - cbn [make_fields]. unfold bind.
    pose proof (Field_init_fails_iff (spec_key kw) (spec_type kw)
                  (spec_value_type kw) h) as Hf.
    destruct (Field_init (spec_key kw) (spec_type kw) (spec_value_type kw) h)
      as [h1 [f|e]] eqn:Ef; cbn [snd] in Hf.
    + specialize (IH h1).
      destruct (make_fields rest h1) as [h2 [fs|e]] eqn:Er; cbn [snd] in *.
      * split; [intros [e He]; discriminate|].
        intros H. apply Exists_cons in H as [H|H].
        -- apply Hf in H as [e He]. discriminate.
        -- apply IH in H as [e He]. discriminate.
      * split; [|eauto]. intros _. apply Exists_cons. right. apply IH. eauto.
    + split; [|eauto]. intros _. apply Exists_cons. left. apply Hf. eauto.
Qed.

Lemma make_fields_error (fields : list FieldSpec) (h : Heap) (e : exn) :
  snd (make_fields fields h) = Err e -> e = ValueError.
Proof.
  revert h. induction fields as [|kw rest IH]; intros h; [discriminate|].
  cbn [make_fields]. unfold bind.
  pose proof (Field_init_error (spec_key kw) (spec_type kw)
                (spec_value_type kw) h) as Hf.
  destruct (Field_init (spec_key kw) (spec_type kw) (spec_value_type kw) h)
    as [h1 [f|e1]]; cbn [snd] in *.
  - specialize (IH h1).
    destruct (make_fields rest h1) as [h2 [fs|e2]]; cbn [snd] in *;
      [discriminate | exact IH].
  - intros [= <-]. now destruct (Hf e1 eq_refl).
Qed.

Lemma make_fields_keys (fields : list FieldSpec) (h h' : Heap)
    (fs : list Field) :
  make_fields fields h = (h', Ok fs) ->
  map field_key fs = map spec_key fields.
Proof.
  revert h h' fs. induction fields as [|kw rest IH]; intros h h' fs.
  - now intros [= _ <-].
  - cbn [make_fields]. unfold bind.
    destruct (Field_init (spec_key kw) (spec_type kw) (spec_value_type kw) h)
      as [h1 [f|e]] eqn:Ef; [|discriminate].
    destruct (make_fields rest h1) as [h2 [fs'|e]] eqn:Er; [|discriminate].
    intros [= <- <-]. cbn [map]. f_equal; [|exact (IH _ _ _ Er)].
    now apply Field_init_binds in Ef as (-> & _).
Qed.

(** X14. [Schema.define] and the module-level [define] raise exactly when
    one of the field specifications is one that [Field.__init__] rejects,
    and what they raise is then a [ValueError]; otherwise they return a
    definition with one field per specification, in order, under the keys
    given. The module-level [define] gives a definition with no id and no
    key. *)
Theorem define_fails_iff (fields : list FieldSpec) (h : Heap) :
  (forall s key,
      ((exists e, snd (Schema_define s key fields h) = Err e)
       <-> Exists invalid_spec fields)
      /\ (forall e, snd (Schema_define s key fields h) = Err e ->
                    e = ValueError)
      /\ (forall h' d s', Schema_define s key fields h = (h', Ok (d, s')) ->
            map field_key (def_fields d) = map spec_key fields))
  /\ ((exists e, snd (define fields h) = Err e) <-> Exists invalid_spec fields)
  /\ (forall e, snd (define fields h) = Err e -> e = ValueError)
  /\ (forall h' d, define fields h = (h', Ok d) ->
        map field_key (def_fields d) = map spec_key fields
        /\ def_id d = None /\ def_key d = None).
Proof.
  pose proof (make_fields_fails_iff fields h) as Hiff.
  pose proof (make_fields_error fields h) as Herr.
  pose proof (make_fields_keys fields h) as Hkeys.
  split; [intros s key|]; unfold Schema_define, define, bind;
    destruct (make_fields fields h) as [h1 [fs|e0]]; cbn [snd] in *.
  - split.
    { split; [intros [e He]; discriminate|].
      intros H. apply Hiff in H as [e He]. discriminate. }
    split; [discriminate|]. intros h' d s' [= <- <- <-].
    exact (Hkeys h1 fs eq_refl).
  - split.
    { split; [intros _; apply Hiff; eauto | eauto]. }
    split; [intros e [= <-]; now apply Herr | discriminate].
  - split.
    { split; [intros [e He]; discriminate|].
      intros H. apply Hiff in H as [e He]. discriminate. }
    split; [discriminate|]. intros h' d [= <- <-].
    split; [exact (Hkeys h1 fs eq_refl) | now split].
  - split.
    { split; [intros _; apply Hiff; eauto | eauto]. }
    split; [intros e [= <-]; now apply Herr | discriminate].
Qed.

Lemma make_fields_locs (fields : list FieldSpec) (h h' : Heap)
    (fs : list Field) :
  make_fields fields h = (h', Ok fs) ->
  string_size h' = string_size h /\ array_size h' = array_size h
  /\ (next_loc h <= next_loc h')%nat
  /\ (forall f l vf, In f fs -> field_codec f = ArrCodec l vf ->
        (next_loc h <= l < next_loc h')%nat)
  /\ (forall i j f g l vf vg,
        fs !! i = Some f -> fs !! j = Some g ->
        field_codec f = ArrCodec l vf -> field_codec g = ArrCodec l vg ->
        i = j).
Proof.
  revert h h' fs. induction fields as [|kw rest IH]; intros h h' fs.
  - intros [= <- <-].
    split; [reflexivity|]. split; [reflexivity|]. split; [lia|]. split.
    + intros f l vf [].
    + intros i j f g l vf vg Hi. now rewrite lookup_nil in Hi.
  - cbn [make_fields]. unfold bind.
    pose proof (Field_init_heap (spec_key kw) (spec_type kw)
                  (spec_value_type kw) h) as Hh.
    destruct (Field_init (spec_key kw) (spec_type kw) (spec_value_type kw) h)
      as [h1 [f0|e]] eqn:Ef; [|discriminate].
    cbn [fst] in Hh. destruct Hh as (Hs1 & Ha1 & Hn1).
    destruct (make_fields rest h1) as [h2 [fs'|e]] eqn:Er; [|discriminate].
    intros [= <- <-].
    destruct (IH _ _ _ Er) as (Hs2 & Ha2 & Hn2 & Hrange & Hinj).
    assert (H0 : forall l vf, field_codec f0 = ArrCodec l vf ->
                   l = next_loc h /\ next_loc h1 = S (next_loc h)).
    { intros l vf Hc. apply Field_init_binds in Ef as (_ & _ & _ & Hb).
      destruct (String.eqb (spec_type kw) "array").
      - destruct Hb as (t & fmt & _ & _ & _ & Hc' & Hn). rewrite Hc in Hc'.
        injection Hc' as -> _. now split.
      - destruct Hb as [Hc' _]. rewrite Hc in Hc'.
        destruct (_codecs_cases _ _ Hc') as [[fmt E]|[E _]]; discriminate E. }
    split; [congruence|]. split; [congruence|]. split; [lia|]. split.
    + intros f l vf [<-|Hin] Hc.
      * destruct (H0 l vf Hc) as [-> Hn]. lia.
      * specialize (Hrange f l vf Hin Hc). lia.
    + intros i j f g l vf vg Hi Hj Hcf Hcg.
      destruct i as [|i], j as [|j]; cbn in Hi, Hj.
      * reflexivity.
      * injection Hi as <-. destruct (H0 l vf Hcf) as [-> Hn].
        apply list_elem_of_lookup_2, list_elem_of_In in Hj.
        specialize (Hrange g _ vg Hj Hcg). lia.
      * injection Hj as <-. destruct (H0 l vg Hcg) as [-> Hn].
        apply list_elem_of_lookup_2, list_elem_of_In in Hi.
        specialize (Hrange f _ vf Hi Hcf). lia.
      * f_equal. eapply Hinj; eauto.
Qed.

(** X15. Every array field gets a codec object of its own: the array codecs
    of the fields one [define] call builds are new objects (they did not
    exist before the call) and no two fields share one, so the [size] that
    [loads] stores for one array field cannot be overwritten through
    another. Building fields changes no [size] attribute. *)
Theorem array_codecs_are_fresh (fields : list FieldSpec) (h h' : Heap)
    (fs : list Field) :
  make_fields fields h = (h', Ok fs) ->
  string_size h' = string_size h /\ array_size h' = array_size h
  /\ (forall f l vf, In f fs -> field_codec f = ArrCodec l vf ->
        (next_loc h <= l < next_loc h')%nat)
  /\ (forall i j f g l vf vg,
        fs !! i = Some f -> fs !! j = Some g ->
        field_codec f = ArrCodec l vf -> field_codec g = ArrCodec l vg ->
        i = j).
Proof.
  intros H. destruct (make_fields_locs _ _ _ _ H) as (H1 & H2 & _ & H3 & H4).
  split; [exact H1|]. split; [exact H2|]. split; [exact H3 | exact H4].
Qed.

Lemma array_codecs_are_fresh_witness :
  exists h' fs,
    make_fields [field_spec "a" "array" (Some "uint8");
                 field_spec "s" "string" None;
                 field_spec "b" "array" (Some "uint8")] empty_heap
    = (h', Ok fs)
    /\ map field_codec fs = [ArrCodec 0 F_B; StrCodec; ArrCodec 1 F_B]
    /\ (forall i j f g l vf vg,
          fs !! i = Some f -> fs !! j = Some g ->
          field_codec f = ArrCodec l vf -> field_codec g = ArrCodec l vg ->
          i = j).
Proof.
  match goal with
  | |- exists h' fs, ?c = _ /\ _ =>
      let r := eval vm_compute in c in
      match r with
      | (?h0, Ok ?fs0) =>
          exists h0, fs0;
          assert (E : c = (h0, Ok fs0)) by (vm_compute; reflexivity)
      end
  end.
  split; [exact E|]. split; [reflexivity|].
  exact (proj2 (proj2 (proj2 (array_codecs_are_fresh _ _ _ _ E)))).
Defined.

(** ** class Schema *)

(** X16. [Schema.__init__] takes any string as id type; one that the codec
    table does not have (such as ["array"]) shows only when the schema is
    used: every [dumps] and every [loads] then raises [KeyError], whatever
    the key, the record or the bytes. *)
Theorem unknown_id_type_surfaces_at_use (s : Schema) :
  _codecs (id_type s) = None ->
  (forall key data, Schema_dumps s key data = Err KeyError)
  /\ (forall string h, Schema_loads s string h = (h, Err KeyError)).
Proof.
  intros Hc. split.
  - intros key data. unfold Schema_dumps. rewrite Hc.
    now destruct (definitions s !! key).
  - intros string h. unfold Schema_loads. now rewrite Hc.
Qed.

Lemma unknown_id_type_surfaces_at_use_witness :
  (forall key data, Schema_dumps (Schema_init "array") key data = Err KeyError)
  /\ (forall string h,
        Schema_loads (Schema_init "array") string h = (h, Err KeyError)).
Proof.
  apply (unknown_id_type_surfaces_at_use (Schema_init "array")). reflexivity.
Defined.

(** X17. The lookups of a schema with an integer id type fail as follows,
    and leave every codec as it was: [dumps] of a key that is not defined
    raises [KeyError]; [loads] of a buffer shorter than the id raises
    [struct.error]; [loads] of a buffer whose id is not registered raises
    [KeyError]; [loads] of a text raises [TypeError]. *)
Theorem Schema_lookup_errors (s : Schema) (lo hi : Z) :
  documented_range (id_type s) = Some (lo, hi) ->
  exists f,
    _codecs (id_type s) = Some (PrimCodec f)
    /\ (forall key data,
          definitions s !! key = None ->
          Schema_dumps s key data = Err KeyError)
    /\ (forall bs h,
          (length bs < Codec_size f)%nat ->
          Schema_loads s (PyBytes bs) h = (h, Err StructError))
    /\ (forall bs h i,
          Codec_loads f bs 0 false = Ok (VInt i) ->
          definitions_by_id s !! i = None ->
          Schema_loads s (PyBytes bs) h = (h, Err KeyError))
    /\ (forall text h, Schema_loads s (PyText text) h = (h, Err TypeError)).
Proof.
  intros Hr. destruct (documented_range_codec _ _ _ Hr) as (f & Hc & Hb).
  exists f. split; [exact Hc|]. split.
  { intros key data Hd. unfold Schema_dumps. now rewrite Hd. }
  split.
  { intros bs h Hlen. unfold Schema_loads. rewrite Hc. unfold bind.
    cbn [codec_loads]. unfold lift.
    now rewrite (Codec_loads_short f bs 0 false Hlen). }
  split.
  { intros bs h i Hl Hn. unfold Schema_loads. rewrite Hc. unfold bind.
    cbn [codec_loads]. unfold lift. rewrite Hl. cbn [get_by_id].
    now rewrite Hn. }
  intros text h. unfold Schema_loads. now rewrite Hc.
Qed.

Lemma Schema_lookup_errors_witness :
  exists f,
    _codecs (id_type (Schema_init "uint16")) = Some (PrimCodec f)
    /\ (forall key data,
          definitions (Schema_init "uint16") !! key = None ->
          Schema_dumps (Schema_init "uint16") key data = Err KeyError)
    /\ (forall bs h,
          (length bs < Codec_size f)%nat ->
          Schema_loads (Schema_init "uint16") (PyBytes bs) h
          = (h, Err StructError))
    /\ (forall bs h i,
          Codec_loads f bs 0 false = Ok (VInt i) ->
          definitions_by_id (Schema_init "uint16") !! i = None ->
          Schema_loads (Schema_init "uint16") (PyBytes bs) h
          = (h, Err KeyError))
    /\ (forall text h,
          Schema_loads (Schema_init "uint16") (PyText text) h
          = (h, Err TypeError)).
Proof.
  apply (Schema_lookup_errors (Schema_init "uint16") 0 65535). reflexivity.
Defined.

(** X18. With an integer id type, what [Schema.loads] returns is what the
    definition registered under the id at the start of the buffer loads from
    the bytes after the id, and that id is within the range of the id type:
    a definition whose id is outside that range is never selected by any
    buffer. *)
Theorem Schema_loads_dispatch (s : Schema) (lo hi : Z) (bs : list byte)
    (h h' : Heap) (r : gmap string value) :
  documented_range (id_type s) = Some (lo, hi) ->
  Schema_loads s (PyBytes bs) h = (h', Ok r) ->
  exists f d i,
    _codecs (id_type s) = Some (PrimCodec f)
    /\ Codec_loads f bs 0 false = Ok (VInt i)
    /\ lo <= i <= hi
    /\ definitions_by_id s !! i = Some d
    /\ Definition_loads d (PyBytes bs) (Codec_size f) h = (h', Ok r).
Proof.
  intros Hr Hl. destruct (documented_range_codec _ _ _ Hr) as (f & Hc & Hb).
  unfold Schema_loads in Hl. rewrite Hc in Hl. unfold bind at 1 in Hl.
  cbn [codec_loads] in Hl. unfold lift in Hl.
  destruct (le_lt_dec (0 + calcsize f) (length bs)) as [Hlen|Hlen].
  - pose proof (Codec_loads_enough f bs 0 false Hlen) as He.
    destruct (int_decode_range false f lo hi (slice bs 0 (calcsize f)) Hb
                (length_slice bs 0 (calcsize f) Hlen)) as (i & Hi & Hrange).
    rewrite Hi in He. rewrite He in Hl. cbn [get_by_id] in Hl.
    destruct (definitions_by_id s !! i) as [d|] eqn:Ed; [|discriminate Hl].
    unfold bind in Hl. cbn [codec_size] in Hl.
    exists f, d, i.
    split; [exact Hc|]. split; [exact He|]. split; [exact Hrange|].
    split; [exact Ed | exact Hl].
  - rewrite (Codec_loads_short f bs 0 false Hlen) in Hl. discriminate Hl.
Qed.

Lemma Schema_loads_dispatch_witness :
  let d := Definition_init
             [ {| field_key := "x"; field_type := "uint8";
                  field_value_type := None; field_codec := PrimCodec F_B |} ]
             (Some 1) (Some "a") false in
  let s := {| definitions := <["a" := d]> ∅;
              definitions_by_id := <[1 := d]> ∅;
              id_type := "uint8"; next_definition_id := 2 |} in
  exists f d' i,
    _codecs (id_type s) = Some (PrimCodec f)
    /\ Codec_loads f [x01; x07] 0 false = Ok (VInt i)
    /\ 0 <= i <= 255
    /\ definitions_by_id s !! i = Some d'
    /\ Definition_loads d' (PyBytes [x01; x07]) (Codec_size f) empty_heap
       = (empty_heap, Ok {[ "x" := VInt 7 ]}).
Proof.
  intros d s.
  apply (Schema_loads_dispatch s 0 255 [x01; x07] empty_heap empty_heap
           {[ "x" := VInt 7 ]}); [reflexivity|].
  vm_compute. reflexivity.
Defined.



